(** * shhgit, [internal/helpers/util.go]: a shallow embedding

    The helpers of the acquisition-and-triage front end: the entropy scorer
    ([GetEntropy]), the HTTP fetch layer ([FetchUrlAs]), the file enumerator
    ([GetCheckableFiles]) and credential selection ([GetRandomToken]).

    Conventions.
    - A Go [string] is a sequence of bytes: [String.string], whose characters
      are the 8-bit [ascii] values.
    - A Go [int64] is a [Z] with its wrap-around written out ([int64]).
    - A Go [float64] is idealised as a real number: [math.Log2 x] is
      [ln x / ln 2] and the arithmetic is exact.  Rounding is not part of
      this model.
    - A Go call either returns or panics: [outcome].
    - Library code ([strings], [path/filepath], [net/http], [encoding/json],
      [math/rand]) is modelled from its documented behaviour, or taken as a
      parameter where the helpers do not depend on what it computes. *)

From Stdlib Require Import ZArith List String Ascii Bool Arith Lia Reals Lra.
From Stdlib Require Import DecimalString.
Import ListNotations.

Open Scope string_scope.
Open Scope nat_scope.

(** ** Errors, panics and outcomes *)

Inductive error : Type :=
| errorString (msg : string)            (* errors.New, fmt.Errorf *)
| SkipDir                               (* filepath.SkipDir *)
| libError (pkg : string) (msg : string). (* an error made by a library *)

Inductive panic : Type :=
| NilDereference                        (* invalid memory address or nil pointer dereference *)
| IndexOutOfRange (i len : Z)           (* index out of range [i] with length len *)
| PanicValue (msg : string).            (* panic(msg) *)

Inductive outcome (A : Type) : Type :=
| Returned (a : A)
| Panicked (p : panic).

Arguments Returned {A} a.
Arguments Panicked {A} p.

(** ** Package [strings] *)

(** [strings.HasPrefix] is [String.prefix]. *)

(** The loop of [strings.Count] for a non-empty [substr]: find the first
    occurrence, count it, continue after it.  [skip] is the number of bytes
    of the last counted occurrence still to step over. *)
Fixpoint count_from (substr : string) (skip : nat) (s : string) : nat :=
  match s with
  | EmptyString => 0
  | String _ s' =>
      match skip with
      | S k => count_from substr k s'
      | O =>
          if prefix substr s
          then S (count_from substr (String.length substr - 1) s')
          else count_from substr 0 s'
      end
  end.

(** [utf8.RuneCountInString]: the size in bytes of the encoding that starts
    with byte [c], given the bytes that follow; 1 for ASCII and for every
    invalid or truncated encoding. *)
Definition continuation (lo hi : nat) (s : string) : bool :=
  match s with
  | String c _ => (lo <=? nat_of_ascii c) && (nat_of_ascii c <=? hi)
  | EmptyString => false
  end.

Definition tail (s : string) : string :=
  match s with
  | String _ s' => s'
  | EmptyString => EmptyString
  end.

Definition rune_size (c : nat) (rest : string) : nat :=
  let two := continuation 128 191 (tail rest) in
  let three := continuation 128 191 (tail (tail rest)) in
  if c <? 194 then 1
  else if c <? 224 then (if continuation 128 191 rest then 2 else 1)
  else if c <? 240 then
    let lo := if c =? 224 then 160 else 128 in
    let hi := if c =? 237 then 159 else 191 in
    if continuation lo hi rest && two then 3 else 1
  else if c <? 245 then
    let lo := if c =? 240 then 144 else 128 in
    let hi := if c =? 244 then 143 else 191 in
    if continuation lo hi rest && two && three then 4 else 1
  else 1.

Fixpoint rune_count_from (skip : nat) (s : string) : nat :=
  match s with
  | EmptyString => 0
  | String c s' =>
      match skip with
      | S k => rune_count_from k s'
      | O => S (rune_count_from (rune_size (nat_of_ascii c) s' - 1) s')
      end
  end.

Definition RuneCountInString (s : string) : nat := rune_count_from 0 s.

(** [strings.Count(s, substr)]: the number of non-overlapping instances of
    [substr] in [s]; for an empty [substr], the number of runes plus one. *)
Definition Count (s substr : string) : nat :=
  match substr with
  | EmptyString => RuneCountInString s + 1
  | String _ _ => count_from substr 0 s
  end.

(** [strings.Contains(s, substr)]: [substr] starts at some position of [s]. *)
Fixpoint Contains (s substr : string) : bool :=
  prefix substr s ||
  match s with
  | EmptyString => false
  | String _ s' => Contains s' substr
  end.

(** ** [GetEntropy] *)

(** The conversion [string(byte(i))], for [0 <= i < 256]: converting an
    integer to a string yields the UTF-8 encoding of the code point, one
    byte below 128 and the two bytes [0xC0 | i>>6], [0x80 | i&0x3F] from 128
    on. *)
Definition string_of_byte (i : nat) : string :=
  if i <? 128
  then String (ascii_of_nat i) EmptyString
  else String (ascii_of_nat (192 + i / 64))
         (String (ascii_of_nat (128 + i mod 64)) EmptyString).

Definition Log2 (x : R) : R := (ln x / ln 2)%R.

(** One iteration of the loop over [i]. *)
Definition entropy_step (data : string) (entropy : R) (i : nat) : R :=
  let px := (INR (Count data (string_of_byte i)) / INR (String.length data))%R in
  if Rlt_dec 0 px then (entropy + - px * Log2 px)%R else entropy.

Definition GetEntropy (data : string) : R :=
  match data with
  | EmptyString => 0%R
  | String _ _ => fold_left (entropy_step data) (seq 0 256) 0%R
  end.

(** The specification's entropy, in its own words: for each of the 256 byte
    values its frequency in the input, and the negative sum, over the values
    of nonzero frequency, of frequency times its base-2 logarithm; 0 for the
    empty input. *)
Fixpoint occurrences (b : ascii) (s : string) : nat :=
  match s with
  | EmptyString => 0
  | String c s' => (if Ascii.eqb c b then 1 else 0) + occurrences b s'
  end.

Definition frequency (data : string) (b : nat) : R :=
  (INR (occurrences (ascii_of_nat b) data) / INR (String.length data))%R.

Definition shannon_term (data : string) (b : nat) : R :=
  if occurrences (ascii_of_nat b) data =? 0 then 0%R
  else (frequency data b * Log2 (frequency data b))%R.

Definition ShannonEntropy (data : string) : R :=
  match data with
  | EmptyString => 0%R
  | String _ _ =>
      (- fold_right (fun b acc => shannon_term data b + acc) 0 (seq 0 256))%R
  end.

(** ** [FetchUrlAs] *)

(** What [FetchUrlAs] uses of [net/http], [io/ioutil] and [encoding/json].
    [V] is the type of the value behind the caller's target [v]. *)
Record Request : Type := mkRequest {
  Method : string;
  URL : string;
  Header : list (string * string)
}.

Record Response : Type := mkResponse {
  StatusCode : Z;
  Status : string;              (* e.g. "404 Not Found" *)
  Body : string * option error  (* what ioutil.ReadAll(resp.Body) gives *)
}.

Record Http (V : Type) : Type := mkHttp {
  (* http.NewRequest(method, url, nil): a request, or an error and no request *)
  NewRequest : string -> string -> Request + error;
  (* http.DefaultClient.Do(req) for a non-nil req: a response, or a transport error *)
  Do : Request -> Response + error;
  (* json.Unmarshal(contents, v): the target after the call, and the error *)
  Unmarshal : string -> V -> V * option error
}.

Arguments NewRequest {V} h _ _.
Arguments Do {V} h _.
Arguments Unmarshal {V} h _ _.

Definition StatusTooManyRequests : Z := 429.
Definition StatusInternalServerError : Z := 500.
Definition StatusOK : Z := 200.

Definition HeaderAdd (req : Request) (key value : string) : Request :=
  mkRequest (Method req) (URL req) (Header req ++ [(key, value)]).

(** The request that reaches the client. *)
Definition sent (auth : string) (req : Request) : Request :=
  if 0 <? String.length auth then HeaderAdd req "Authorization" auth else req.

(** [FetchUrlAs urlStr auth v]: the returned error and the target after the
    call, or a panic.  The [err] of the first line is the one the last line
    returns; the [err] of [Do] and the [err] of [ReadAll] are declared by
    their own [if] statements and are gone after them.  With no request
    ([req == nil]) both [req.Header] and [Do(req)] dereference nil.  The
    deferred [resp.Body.Close()] has no part in the result. *)
Definition FetchUrlAs {V : Type} (http : Http V)
    (urlStr auth : string) (v : V) : outcome (option error * V) :=
  let '(req, err) :=
    match NewRequest http "GET" urlStr with
    | inl r => (Some r, None)
    | inr e => (None, Some e)
    end in
  match req with
  | None => Panicked NilDereference
  | Some req =>
      let req := sent auth req in
      match Do http req with
      | inl resp =>
          if (StatusCode resp =? StatusTooManyRequests)%Z then
            Returned (Some (errorString "rate limited"), v)
          else if (StatusCode resp =? StatusInternalServerError)%Z then
            Returned (Some (errorString "internal server error"), v)
          else if negb (StatusCode resp =? StatusOK)%Z then
            Returned
              (Some (errorString ("got " ++ Status resp ++ ", wanted 200 OK")), v)
          else
            match Body resp with
            | (contents, None) =>
                let '(v', e) := Unmarshal http contents v in Returned (e, v')
            | (_, Some _) => Returned (err, v)
            end
      | inr _ => Returned (err, v)
      end
  end.

(** ** [GetCheckableFiles] *)

Definition int64 (z : Z) : Z := ((z + 2 ^ 63) mod 2 ^ 64 - 2 ^ 63)%Z.

Record FileInfo : Type := mkFileInfo {
  Name : string;
  Size : Z;          (* int64 *)
  IsDir : bool
}.

(** A directory tree as [filepath.Walk] meets it: an entry whose [os.Lstat]
    fails, or an entry with its [FileInfo] and, for a directory, what reading
    the directory gives: an error or the entries in it, in the order of
    their names.  The listing of an entry that is not a directory is never
    looked at. *)
#[warnings="-register-all"]
Inductive node : Type :=
| Broken (name : string) (e : error)
| Entry (name : string) (info : FileInfo) (readdir : option error)
    (entries : list node).

Definition node_name (n : node) : string :=
  match n with
  | Broken name _ => name
  | Entry name _ _ _ => name
  end.

(** The arguments of a [WalkFunc] after the path: the info of an entry that
    was reached without error, or an error and the info if there is one. *)
Inductive visit : Type :=
| Visit (info : FileInfo)
| VisitErr (info : option FileInfo) (err : error).

Definition WalkFunc (S : Type) : Type :=
  S -> string -> visit -> S * option error.

(** What the enumerator uses of [strings], [path/filepath] and the [types]
    package; [MatchFile] and [NewMatchFile] are declared in [types], the
    others depend on the operating system or on Unicode tables. *)
Record Platform (MatchFile : Type) : Type := mkPlatform {
  Join : string -> string -> string;      (* filepath.Join(path, name) *)
  Ext : string -> string;                 (* filepath.Ext *)
  ToSlash : string -> string;             (* filepath.ToSlash *)
  ToLower : string -> string;             (* strings.ToLower *)
  NewMatchFile : string -> MatchFile      (* types.NewMatchFile *)
}.

Arguments Join {MatchFile} p _ _.
Arguments Ext {MatchFile} p _.
Arguments ToSlash {MatchFile} p _.
Arguments ToLower {MatchFile} p _.
Arguments NewMatchFile {MatchFile} p _.

Section Walk.
Context {MatchFile S : Type} (os : Platform MatchFile) (walkFn : WalkFunc S).

(** [walk] of [path/filepath], on the entry found at [path]: a file is
    visited; a directory is visited with the error of reading it, and
    entered when neither that nor the visit gave an error; an entry of it
    that cannot be stat-ed is visited with the error.  [SkipDir] from an
    entry that is not a directory, and every other error, ends the walk of
    the directory. *)
Fixpoint walk (path : string) (n : node) (st : S) {struct n}
    : S * option error :=
  match n with
  | Broken _ e => walkFn st path (VisitErr None e)
  | Entry _ info readdir entries =>
      if negb (IsDir info) then walkFn st path (Visit info)
      else
        match readdir with
        | Some err => walkFn st path (VisitErr (Some info) err)
        | None =>
            let '(st1, err1) := walkFn st path (Visit info) in
            match err1 with
            | Some _ => (st1, err1)
            | None =>
                (fix each (names : list node) (st : S) {struct names}
                   : S * option error :=
                   match names with
                   | [] => (st, None)
                   | child :: rest =>
                       let filename := Join os path (node_name child) in
                       let '(st', err) := walk filename child st in
                       match child, err with
                       | _, None => each rest st'
                       | Broken _ _, Some SkipDir => each rest st'
                       | Entry _ fileInfo _ _, Some SkipDir =>
                           if IsDir fileInfo then each rest st'
                           else (st', err)
                       | _, Some _ => (st', err)
                       end
                   end) entries st1
            end
        end
  end.

(** [filepath.Walk(root, walkFn)]. *)
Definition Walk (root : string) (tree : node) (st : S) : S * option error :=
  let '(st', err) := walk root tree st in
  match err with
  | Some SkipDir => (st', None)
  | _ => (st', err)
  end.
End Walk.

Record ConfigBlacklists : Type := mkConfigBlacklists {
  Extensions : list string;
  Paths : list string
}.

Section GetCheckableFiles.
Context {MatchFile : Type} (os : Platform MatchFile).

(** The two loops over the blacklists. *)
Definition extension_blacklisted (blacklists : ConfigBlacklists)
    (path : string) : bool :=
  let extension := ToLower os (Ext os path) in
  existsb (fun skippableExt => String.eqb extension skippableExt)
    (Extensions blacklists).

Definition path_blacklisted (blacklists : ConfigBlacklists)
    (path : string) : bool :=
  existsb (fun skippablePathIndicator =>
             Contains (ToSlash os path) skippablePathIndicator)
    (Paths blacklists).

(** The function passed to [filepath.Walk]; the state is [fileList]. *)
Definition checkable (maximumFileSizeKb : Z) (blacklists : ConfigBlacklists)
    : WalkFunc (list MatchFile) :=
  fun fileList path v =>
    match v with
    | VisitErr _ _ => (fileList, None)
    | Visit file =>
        if IsDir file || (Size file >? maximumFileSizeKb)%Z then (fileList, None)
        else if extension_blacklisted blacklists path then (fileList, None)
        else if path_blacklisted blacklists path then (fileList, None)
        else ((fileList ++ [NewMatchFile os path])%list, None)
    end.

(** [GetCheckableFiles dir maximumFileSize blacklists], on the tree found
    at [dir]. *)
Definition GetCheckableFiles (dir : string) (maximumFileSize : Z)
    (blacklists : ConfigBlacklists) (tree : node) : list MatchFile :=
  let fileList := [] in
  let maximumFileSizeKb := int64 (maximumFileSize * 1024) in
  fst (Walk os (checkable maximumFileSizeKb blacklists) dir tree fileList).
End GetCheckableFiles.

(** ** [GetRandomToken] *)

Record ConfigSource : Type := mkConfigSource {
  Tokens : list string
}.

(** [rand.Intn(n)]: panics if [n <= 0]; else a number in [[0, n)] from the
    global source, here the draw [rnd]. *)
Definition Intn (rnd : Z) (n : Z) : outcome Z :=
  if (n <=? 0)%Z then Panicked (PanicValue "invalid argument to Intn")
  else Returned (rnd mod n)%Z.

(** Indexing a slice. *)
Definition index {A : Type} (l : list A) (i : Z) : outcome A :=
  if (i <? 0)%Z then Panicked (IndexOutOfRange i (Z.of_nat (List.length l)))
  else
    match nth_error l (Z.to_nat i) with
    | Some a => Returned a
    | None => Panicked (IndexOutOfRange i (Z.of_nat (List.length l)))
    end.

Definition GetRandomToken (rnd : Z) (configSource : ConfigSource)
    : outcome string :=
  let numberOfTokens := Z.of_nat (List.length (Tokens configSource)) in
  match Intn rnd numberOfTokens with
  | Panicked p => Panicked p
  | Returned i => index (Tokens configSource) i
  end.

(** ** Auxiliary definitions of the proofs *)

(** The number of positions of [s] at which [substr] starts. *)
Fixpoint starts (substr s : string) : nat :=
  match s with
  | EmptyString => 0
  | String _ s' => (if prefix substr s then 1 else 0) + starts substr s'
  end.

(** The term that a byte value counted [c] times in [n] bytes adds to the
    entropy. *)
Definition entropy_term (n c : nat) : R :=
  let px := (INR c / INR n)%R in
  if Rlt_dec 0 px then (- px * Log2 px)%R else 0%R.

Definition Rsum (l : list R) : R := fold_right Rplus 0%R l.

(** The counts of the 256 iterations. *)
Definition counts (data : string) : list nat :=
  map (fun i => Count data (string_of_byte i)) (seq 0 256).

(** The number of occurrences of each of the 256 byte values. *)
Definition byte_counts (data : string) : list nat :=
  map (fun b => occurrences (ascii_of_nat b) data) (seq 0 256).

Definition nonzero (c : nat) : bool := negb (c =? 0).

(** Every byte of the string is below 128. *)
Fixpoint ascii_only (s : string) : bool :=
  match s with
  | EmptyString => true
  | String c s' => (nat_of_ascii c <? 128) && ascii_only s'
  end.

(** The two bytes [0xC3 0xA9], the UTF-8 encoding of U+00E9. *)
Definition e_acute : string :=
  String (ascii_of_nat 195) (String (ascii_of_nat 169) EmptyString).

(** ** A platform to run the enumerator on: POSIX paths, ASCII letters *)

Fixpoint ext_from (path : string) : option string :=
  match path with
  | EmptyString => None
  | String c rest =>
      match ext_from rest with
      | Some e => Some e
      | None =>
          if Ascii.eqb c "."%char then Some path
          else if Ascii.eqb c "/"%char then Some EmptyString
          else None
      end
  end.

(** [filepath.Ext] with separator [/]: the suffix of the last element of
    the path from its last dot. *)
Definition posix_Ext (path : string) : string :=
  match ext_from path with
  | Some e => e
  | None => EmptyString
  end.

Definition lower (c : ascii) : ascii :=
  let n := nat_of_ascii c in
  if (65 <=? n) && (n <=? 90) then ascii_of_nat (n + 32) else c.

(** [strings.ToLower] on a string of ASCII bytes. *)
Fixpoint ascii_ToLower (s : string) : string :=
  match s with
  | EmptyString => EmptyString
  | String c s' => String (lower c) (ascii_ToLower s')
  end.

(** A candidate file is represented by its path; joining is done for clean
    paths that do not end in a separator. *)
Definition posix : Platform string :=
  {| Join := fun path name => path ++ "/" ++ name;
     Ext := posix_Ext;
     ToSlash := fun path => path;
     ToLower := ascii_ToLower;
     NewMatchFile := fun path => path |}.

(** ** Servers and trees to run the helpers on *)

(** A server that answers every request with the given response; the JSON
    target is a string and decoding copies the body into it, failing on an
    empty body. *)
Definition decode (contents v : string) : string * option error :=
  match contents with
  | EmptyString => (v, Some (libError "json" "unexpected end of JSON input"))
  | String _ _ => (contents, None)
  end.

Definition answering (resp : Response) : Http string :=
  {| NewRequest := fun method url => inl (mkRequest method url []);
     Do := fun _ => inl resp;
     Unmarshal := decode |}.

(** A server that cannot be reached. *)
Definition connection_refused : error :=
  libError "net" "dial tcp 127.0.0.1:1: connect: connection refused".

Definition unreachable : Http string :=
  {| NewRequest := fun method url => inl (mkRequest method url []);
     Do := fun _ => inr connection_refused;
     Unmarshal := decode |}.

Definition regular (name : string) (size : Z) : node :=
  Entry name (mkFileInfo name size false) None [].

Definition directory (name : string) (entries : list node) : node :=
  Entry name (mkFileInfo name 4096 true) None entries.

(** A clone with a directory and a file whose names differ from the
    blacklist entries in letter case only. *)
Definition mixed_case_repo : node :=
  directory "repo"
    [ directory "Node_Modules" [ regular "a.js" 10 ];
      regular "b.png" 20 ].

Definition mixed_case_blacklists : ConfigBlacklists :=
  {| Extensions := [".PNG"]; Paths := ["node_modules"] |}.

(** A clone with one entry that cannot be stat-ed between two files, a
    file above the size limit, a file with a blacklisted extension and a
    file under a blacklisted path. *)
Definition small_repo : node :=
  directory "repo"
    [ regular "a.go" 10;
      Broken "b.go" (libError "os" "lstat /repo/b.go: permission denied");
      regular "c.go" 30;
      regular "big.bin" 300000;
      regular "logo.PNG" 40;
      directory "vendor" [ regular "x.go" 5 ] ].

Definition small_blacklists : ConfigBlacklists :=
  {| Extensions := [".png"]; Paths := ["vendor/"] |}.

(** The entries that [filepath.Walk] visits without error, with their
    paths, in the order of the walk. *)
Section Visited.
Context {MatchFile : Type} (os : Platform MatchFile).

Fixpoint visited (path : string) (n : node) : list (string * FileInfo) :=
  match n with
  | Broken _ _ => []
  | Entry _ info readdir entries =>
      if negb (IsDir info) then [(path, info)]
      else
        match readdir with
        | Some _ => []
        | None =>
            (path, info) ::
            flat_map (fun child => visited (Join os path (node_name child)) child)
              entries
        end
  end.

(** The test of the walk function on an entry visited without error. *)
Definition keeps (maximumFileSizeKb : Z) (blacklists : ConfigBlacklists)
    (entry : string * FileInfo) : bool :=
  let '(path, file) := entry in
  negb (IsDir file || (Size file >? maximumFileSizeKb)%Z)
  && negb (extension_blacklisted os blacklists path)
  && negb (path_blacklisted os blacklists path).

(** The candidate files of the entries that pass the test. *)
Definition emitted (maximumFileSizeKb : Z) (blacklists : ConfigBlacklists)
    (l : list (string * FileInfo)) : list MatchFile :=
  map (fun entry => NewMatchFile os (fst entry))
    (filter (keeps maximumFileSizeKb blacklists) l).
End Visited.

(** ** [GetHash] *)

(** [crypto/sha1] after FIPS 180-4, on 32-bit words held in [Z]. *)
Definition word (z : Z) : Z := (z mod 2 ^ 32)%Z.

Definition rotl (n x : Z) : Z :=
  word (Z.lor (Z.shiftl x n) (Z.shiftr x (32 - n))).

Definition bytes_of_string (s : string) : list Z :=
  map (fun c => Z.of_nat (nat_of_ascii c)) (list_ascii_of_string s).

(** The [n] low bytes of [z], most significant first. *)
Fixpoint big_endian (n : nat) (z : Z) : list Z :=
  match n with
  | O => []
  | S k => (Z.shiftr z (8 * Z.of_nat k) mod 256)%Z :: big_endian k z
  end.

(** The message, the byte [0x80], zero bytes up to 56 modulo 64, and the
    length in bits as a 64-bit number. *)
Definition sha1_pad (msg : list Z) : list Z :=
  let len := List.length msg in
  let zeros := (119 - len mod 64) mod 64 in
  (msg ++ 128%Z :: repeat 0%Z zeros ++
   big_endian 8 ((8 * Z.of_nat len) mod 2 ^ 64)%Z)%list.

Fixpoint word_of_bytes (acc : Z) (bytes : list Z) : Z :=
  match bytes with
  | [] => acc
  | b :: rest => word_of_bytes (acc * 256 + b)%Z rest
  end.

(** The words of a run of bytes, four bytes each. *)
Fixpoint words_of_bytes (n : nat) (bytes : list Z) : list Z :=
  match n with
  | O => []
  | S k => word_of_bytes 0 (firstn 4 bytes) :: words_of_bytes k (skipn 4 bytes)
  end.

(** The message schedule, latest word first: [steps] more words after the
    ones in [w]. *)
Fixpoint sha1_schedule (steps : nat) (w : list Z) : list Z :=
  match steps with
  | O => w
  | S k =>
      let x := Z.lxor (Z.lxor (nth 2 w 0%Z) (nth 7 w 0%Z))
                 (Z.lxor (nth 13 w 0%Z) (nth 15 w 0%Z)) in
      sha1_schedule k (rotl 1 x :: w)
  end.

Definition sha1_state : Type := (Z * Z * Z * Z * Z)%type.

Definition sha1_round (st : sha1_state) (tw : nat * Z) : sha1_state :=
  let '(a, b, c, d, e) := st in
  let '(t, w) := tw in
  let not_b := Z.lxor b 4294967295 in
  let '(f, k) :=
    if t <? 20 then (Z.lor (Z.land b c) (Z.land not_b d), 1518500249%Z)
    else if t <? 40 then (Z.lxor (Z.lxor b c) d, 1859775393%Z)
    else if t <? 60 then
      (Z.lor (Z.land (Z.lor b c) d) (Z.land b c), 2400959708%Z)
    else (Z.lxor (Z.lxor b c) d, 3395469782%Z) in
  (word (rotl 5 a + f + e + w + k), a, rotl 30 b, c, d).

Definition sha1_block (h : sha1_state) (block : list Z) : sha1_state :=
  let w := rev (sha1_schedule 64 (rev (words_of_bytes 16 block))) in
  let '(a, b, c, d, e) := fold_left sha1_round (combine (seq 0 80) w) h in
  let '(h0, h1, h2, h3, h4) := h in
  (word (h0 + a), word (h1 + b), word (h2 + c), word (h3 + d), word (h4 + e)).

Fixpoint sha1_blocks (n : nat) (h : sha1_state) (bytes : list Z) : sha1_state :=
  match n with
  | O => h
  | S k => sha1_blocks k (sha1_block h (firstn 64 bytes)) (skipn 64 bytes)
  end.

Definition sha1_init : sha1_state :=
  (1732584193, 4023233417, 2562383102, 271733878, 3285377520)%Z.

(** [h.Write(msg); h.Sum(nil)]: the 20 bytes of the digest. *)
Definition sha1_Sum (msg : list Z) : list Z :=
  let padded := sha1_pad msg in
  let '(h0, h1, h2, h3, h4) :=
    sha1_blocks (List.length padded / 64) sha1_init padded in
  (big_endian 4 h0 ++ big_endian 4 h1 ++ big_endian 4 h2 ++
   big_endian 4 h3 ++ big_endian 4 h4)%list.

(** [encoding/hex]: the digit of a number below 16, from the table
    [0123456789abcdef]. *)
Definition hex_digit (n : Z) : ascii :=
  match get (Z.to_nat n) "0123456789abcdef" with
  | Some c => c
  | None => "0"%char
  end.

Fixpoint EncodeToString (src : list Z) : string :=
  match src with
  | [] => EmptyString
  | b :: rest =>
      String (hex_digit (Z.shiftr b 4))
        (String (hex_digit (Z.land b 15)) (EncodeToString rest))
  end.

Definition GetHash (s : string) : string :=
  EncodeToString (sha1_Sum (bytes_of_string s)).

(** ** [GetTempDir] and [PathExists] *)

(** A file system without permissions, symbolic links or I/O errors: the
    paths that exist, each a directory ([Some true]) or another file
    ([Some false]).  The model speaks of one kind of path only, the
    [supported] ones: absolute, separated by single slashes, not the root,
    with no empty element and no element [.] or [..].  For every other
    path (the empty path, a relative path, the root, a path ending in a
    separator or a dot) the operations below give [None]: the model does
    not say what the operating system does there. *)
Definition FileSystem : Type := string -> option bool.

(** The elements of a path, the text before the first separator
    included. *)
Fixpoint elements_from (element rest : string) : list string :=
  match rest with
  | EmptyString => [element]
  | String c rest' =>
      if Ascii.eqb c "/"%char then element :: elements_from EmptyString rest'
      else elements_from (element ++ String c EmptyString) rest'
  end.

Definition elements (path : string) : list string :=
  elements_from EmptyString path.

Definition proper_element (element : string) : bool :=
  negb (String.eqb element EmptyString) && negb (String.eqb element ".")
  && negb (String.eqb element "..").

Definition supported (path : string) : bool :=
  match elements path with
  | first :: (_ :: _) as names =>
      String.eqb first EmptyString && forallb proper_element names
  | _ => false
  end.

Definition ENOENT : error := libError "syscall" "no such file or directory".
Definition ENOTDIR : error := libError "syscall" "not a directory".

Definition error_eqb (e1 e2 : error) : bool :=
  match e1, e2 with
  | errorString m1, errorString m2 => String.eqb m1 m2
  | SkipDir, SkipDir => true
  | libError p1 m1, libError p2 m2 => String.eqb p1 p2 && String.eqb m1 m2
  | _, _ => false
  end.

(** [os.IsNotExist(err)]; false for [nil]. *)
Definition IsNotExist (err : option error) : bool :=
  match err with
  | Some e => error_eqb e ENOENT
  | None => false
  end.

(** The proper ancestors of a path below the root, outermost first: what
    stands before each of its separators but the first. *)
Fixpoint ancestors_from (before rest : string) : list string :=
  match rest with
  | EmptyString => []
  | String c rest' =>
      ((if Ascii.eqb c "/"%char && negb (String.eqb before EmptyString)
        then [before] else []) ++
       ancestors_from (before ++ String c EmptyString) rest')%list
  end.

Definition ancestors (path : string) : list string :=
  ancestors_from EmptyString path.

(** An ancestor of the path is a file that is not a directory. *)
Definition through_file (fs : FileSystem) (path : string) : bool :=
  existsb (fun a => match fs a with Some false => true | _ => false end)
    (ancestors path).

(** [os.Stat(path)] for a supported path: whether the file is a directory,
    or the error. *)
Definition Stat (fs : FileSystem) (path : string) : option (bool + error) :=
  if supported path then
    Some match fs path with
         | Some isDir => inl isDir
         | None => if through_file fs path then inr ENOTDIR else inr ENOENT
         end
  else None.

Definition stat_error (r : bool + error) : option error :=
  match r with
  | inl _ => None
  | inr e => Some e
  end.

(** [os.MkdirAll(path, perm)] for a supported path: the directory and the
    ancestors it lacks are made, unless the path or an ancestor is a file
    that is not a directory. *)
Definition MkdirAll (fs : FileSystem) (path : string)
    : option (FileSystem * option error) :=
  if supported path then
    Some match fs path with
         | Some true => (fs, None)
         | Some false => (fs, Some ENOTDIR)
         | None =>
             if through_file fs path then (fs, Some ENOTDIR)
             else
               (fun q =>
                  if String.eqb q path || existsb (String.eqb q) (ancestors path)
                  then match fs q with Some k => Some k | None => Some true end
                  else fs q,
                None)
         end
  else None.

(** [dir] itself or a path under it. *)
Definition within (dir path : string) : bool :=
  String.eqb path dir || prefix (dir ++ "/") path.

(** [os.RemoveAll(path)] for a supported path: the path and everything
    under it are gone; nothing changes when an ancestor is a file that is
    not a directory. *)
Definition RemoveAll (fs : FileSystem) (path : string)
    : option (FileSystem * option error) :=
  if supported path then
    Some (if through_file fs path then (fs, Some ENOTDIR)
          else (fun q => if within path q then None else fs q, None))
  else None.

(** [GetTempDir prefix suffix]: the returned path and the file system
    after the call, when [filepath.Join] ([join]) gives a supported
    path. *)
Definition GetTempDir (join : string -> string -> string) (fs : FileSystem)
    (prefix suffix : string) : option (string * FileSystem) :=
  let dir := join prefix suffix in
  match Stat fs dir with
  | None => None
  | Some r =>
      if IsNotExist (stat_error r)
      then match MkdirAll fs dir with
           | Some (fs', _) => Some (dir, fs')
           | None => None
           end
      else match RemoveAll fs dir with
           | Some (fs', _) => Some (dir, fs')
           | None => None
           end
  end.

(** [PathExists path], for a supported path. *)
Definition PathExists (fs : FileSystem) (path : string) : option bool :=
  match Stat fs path with
  | None => None
  | Some r =>
      let err := stat_error r in
      Some match err with
           | None => true
           | Some _ => if IsNotExist err then false else false
           end
  end.

(** ** [GetFilesInPath] *)

(** A call that returns, or ends the process as [log.Fatal] does: the
    message is logged and the exit status is 1. *)
Inductive process (A : Type) : Type :=
| Done (a : A)
| Fatal (message : string).

Arguments Done {A} a.
Arguments Fatal {A} message.

Record Directories : Type := mkDirectories {
  Getwd : string + error;                      (* os.Getwd() *)
  ReadDir : string -> list FileInfo + error    (* ioutil.ReadDir(path) *)
}.

Definition GetFilesInPath {MatchFile : Type} (os : Platform MatchFile)
    (env : Directories) (dir ext : string) : process (list string) :=
  match Getwd env with
  | inr _ => Fatal "Failed to get cwd?"
  | inl cwd =>
      let path := Join os cwd dir in
      match ReadDir env path with
      | inr _ => Fatal ("Couldn't read files in: " ++ path)
      | inl files =>
          Done
            (fold_left
               (fun matches file =>
                  if String.eqb (Ext os (Name file)) ext
                  then (matches ++ [Join os path (Name file)])%list
                  else matches)
               files [])
      end
  end.

(** ** [GetDirectorySize] *)

(** The function passed to [filepath.Walk]; the state is [size]. *)
Definition add_size : WalkFunc Z :=
  fun size _ v =>
    match v with
    | VisitErr _ err => (size, Some err)
    | Visit info =>
        (if negb (IsDir info) then int64 (size + Size info) else size, None)
    end.

Definition GetDirectorySize {MatchFile : Type} (os : Platform MatchFile)
    (dir : string) (tree : node) : Z * option error :=
  let size := 0%Z in
  Walk os add_size dir tree size.

(** ** [CloneGitRepository] and [CloneMercurialRepository] *)

(** A command with the time, in nanoseconds, after which its context
    expires. *)
Record Cmd : Type := mkCmd {
  Program : string;
  Args : list string;
  Timeout : Z
}.

Definition Second : Z := 1000000000.

(** [time.Duration(timeout) * time.Second] for a 64-bit [uint]: the
    conversion to [int64] and the product both wrap. *)
Definition timeoutSecs (timeout : Z) : Z := int64 (int64 timeout * Second).

Definition git_clone (url dir : string) (timeout : Z) : Cmd :=
  mkCmd "git"
    ["clone"; url; dir; "--quiet"; "--no-tags"; "--single-branch"; "--depth=1"]
    (timeoutSecs timeout).

Definition hg_clone (url dir : string) (timeout : Z) : Cmd :=
  mkCmd "hg" ["clone"; url; dir; "--stream"] (timeoutSecs timeout).

(** [Run] is [cloneCmd.Run()] under the context of the command. *)
Definition CloneGitRepository (Run : Cmd -> option error)
    (url dir : string) (timeout : Z) : option error :=
  match Run (git_clone url dir timeout) with
  | Some err => Some err
  | None => None
  end.

Definition CloneMercurialRepository (Run : Cmd -> option error)
    (url dir : string) (timeout : Z) : option error :=
  match Run (hg_clone url dir timeout) with
  | Some err => Some err
  | None => None
  end.

(** ** [os/exec] under a context with a deadline *)

(** What the program of a command does when it is left alone. *)
Inductive behaviour : Type :=
| Exits (after status : Z)   (* exits by itself, so many nanoseconds after its start *)
| Hangs                      (* does not exit by itself *)
| NotStarted (e : error).    (* cannot be started: not found, not executable *)

(** What happens to the process of a command. *)
Inductive event : Type :=
| Started (cmd : Cmd)
| Exited (status : Z)        (* the process exited and was waited for *)
| Killed.                    (* the process was killed and waited for *)

Definition DeadlineExceeded : error :=
  libError "context" "context deadline exceeded".

Definition signal_killed : error := libError "os/exec" "signal: killed".

Definition ExitError (status : Z) : error :=
  libError "os/exec"
    ("exit status " ++ NilZero.string_of_uint (N.to_uint (Z.to_N status))).

(** [exec.CommandContext(ctx, ...).Run()] with [ctx] from
    [context.WithTimeout(context.Background(), Timeout cmd)]: what happens
    to the process, and the error returned.  A context whose timeout is not
    positive is done from the start, and [Start] then returns its error
    without starting the process.  A process that is started is waited
    for: it exits by itself before the deadline, with status 0 and no
    error or with another status and the error of that status, or it is
    killed at the deadline and the error is that of the killed process.
    Only the process of the command itself is followed, not the processes
    it starts in turn. *)
Definition exec_Run (program : Cmd -> behaviour) (cmd : Cmd)
    : list event * option error :=
  if (Timeout cmd <=? 0)%Z then ([], Some DeadlineExceeded)
  else
    match program cmd with
    | NotStarted e => ([], Some e)
    | Hangs => ([Started cmd; Killed], Some signal_killed)
    | Exits after status =>
        if (after <? Timeout cmd)%Z then
          ([Started cmd; Exited status],
           if (status =? 0)%Z then None else Some (ExitError status))
        else ([Started cmd; Killed], Some signal_killed)
    end.

(** The number of times a process was started. *)
Definition starts_of (trace : list event) : nat :=
  List.length
    (filter (fun ev => match ev with Started _ => true | _ => false end) trace).

(** A clone that takes two seconds and succeeds, and one that is done at
    once. *)
Definition slow_clone : Cmd -> behaviour := fun _ => Exits (2 * Second) 0.
Definition instant_clone : Cmd -> behaviour := fun _ => Exits 0 0.

(** ** Auxiliary definitions for the remaining helpers *)

(** [strings.Repeat] of one byte. *)
Fixpoint repeat_byte (c : ascii) (n : nat) : string :=
  match n with
  | O => EmptyString
  | S k => String c (repeat_byte c k)
  end.

(** Every byte of the string is 128 or more and is neither [0xC2] nor
    [0xC3]. *)
Fixpoint high_only (s : string) : bool :=
  match s with
  | EmptyString => true
  | String c s' =>
      let n := nat_of_ascii c in
      (128 <=? n) && negb (n =? 194) && negb (n =? 195) && high_only s'
  end.

(** A server for which no request can be built. *)
Definition invalid_url : Http string :=
  {| NewRequest := fun _ url =>
       inr (libError "net/url" ("parse " ++ url ++ ": missing protocol scheme"));
     Do := fun _ => inr connection_refused;
     Unmarshal := decode |}.

(** Every entry of the tree can be stat-ed and every directory read. *)
Fixpoint readable (n : node) : bool :=
  match n with
  | Broken _ _ => false
  | Entry _ info readdir entries =>
      negb (IsDir info) ||
      match readdir with
      | Some _ => false
      | None => forallb readable entries
      end
  end.

(** The sizes of the entries that are not directories, added up. *)
Definition total_size (l : list (string * FileInfo)) : Z :=
  fold_right
    (fun entry acc => if IsDir (snd entry) then acc else (Size (snd entry) + acc)%Z)
    0%Z l.

(** A working directory whose sub-directories all list the given names, as
    files of one byte. *)
Definition listing (names : list string) : Directories :=
  {| Getwd := inl "/home/shhgit";
     ReadDir := fun _ => inl (map (fun name => mkFileInfo name 1 false) names) |}.

(** A file system with the directory [/tmp/shhgit] and a clone in it. *)
Definition used_tmp : FileSystem :=
  fun path =>
    if String.eqb path "/tmp" then Some true
    else if String.eqb path "/tmp/shhgit" then Some true
    else if String.eqb path "/tmp/shhgit/README.md" then Some false
    else None.

(** A file system with the directory [/tmp] only. *)
Definition fresh_tmp : FileSystem :=
  fun path => if String.eqb path "/tmp" then Some true else None.

(** * Proofs *)

(** ** Counting occurrences *)

Section Counting.

Lemma prefix_single (a b : ascii) (s : string) :
  prefix (String a EmptyString) (String b s) = true -> a = b.
Proof.
  cbn [prefix]. destruct (ascii_dec a b) as [e | ne]; [intros _; exact e | discriminate].
Qed.

Lemma prefix_pair (a1 a2 b : ascii) (s : string) :
  prefix (String a1 (String a2 EmptyString)) (String b s) = true ->
  a1 = b /\ exists s', s = String a2 s'.
Proof.
  cbn [prefix]. destruct (ascii_dec a1 b) as [e | ne]; [| discriminate].
  destruct s as [| b2 s']; cbn [prefix]; [discriminate |].
  destruct (ascii_dec a2 b2) as [e2 | ne2]; [| discriminate].
  intros _. subst. split; [reflexivity | now exists s'].
Qed.

Lemma String_head_eq (a b : ascii) (s t : string) :
  String a s = String b t -> a = b.
Proof. congruence. Qed.

Lemma ascii_of_nat_inj (i j : nat) :
  i < 256 -> j < 256 -> ascii_of_nat i = ascii_of_nat j -> i = j.
Proof.
  intros Hi Hj E.
  rewrite <- (nat_ascii_embedding i Hi), <- (nat_ascii_embedding j Hj).
  now rewrite E.
Qed.

Lemma string_of_byte_nonempty (i : nat) :
  exists c rest, string_of_byte i = String c rest.
Proof.
  unfold string_of_byte. destruct (i <? 128); eauto.
Qed.

Lemma Count_string_of_byte (data : string) (i : nat) :
  Count data (string_of_byte i) = count_from (string_of_byte i) 0 data.
Proof.
  destruct (string_of_byte_nonempty i) as (c & rest & E).
  rewrite E. reflexivity.
Qed.

(** At a given position at most one of the 256 patterns starts. *)
Lemma string_of_byte_prefix_unique (s : string) (i j : nat) :
  i < 256 -> j < 256 ->
  prefix (string_of_byte i) s = true ->
  prefix (string_of_byte j) s = true ->
  i = j.
Proof.
  intros Hi Hj Pi Pj.
  destruct s as [| b s]; [destruct (string_of_byte_nonempty i) as (c & r & E);
                          rewrite E in Pi; discriminate |].
  assert (D64 : forall k, k < 256 -> k / 64 < 4)
    by (intros k Hk; apply Nat.Div0.div_lt_upper_bound; lia).
  assert (M64 : forall k, k mod 64 < 64)
    by (intros k; apply Nat.mod_upper_bound; lia).
  unfold string_of_byte in Pi, Pj.
  destruct (Nat.ltb_spec i 128) as [Li | Li];
    destruct (Nat.ltb_spec j 128) as [Lj | Lj].
  - apply prefix_single in Pi, Pj. rewrite <- Pj in Pi.
    now apply ascii_of_nat_inj in Pi.
  - apply prefix_single in Pi. apply prefix_pair in Pj as [Pj _].
    rewrite <- Pj in Pi. specialize (D64 j Hj).
    apply ascii_of_nat_inj in Pi; lia.
  - apply prefix_single in Pj. apply prefix_pair in Pi as [Pi _].
    rewrite <- Pj in Pi. specialize (D64 i Hi).
    apply ascii_of_nat_inj in Pi; lia.
  - apply prefix_pair in Pi as [Pi (s1 & E1)].
    apply prefix_pair in Pj as [Pj (s2 & E2)].
    rewrite <- Pj in Pi. rewrite E1 in E2. apply String_head_eq in E2.
    pose proof (D64 i Hi). pose proof (D64 j Hj).
    pose proof (M64 i). pose proof (M64 j).
    apply ascii_of_nat_inj in Pi; [| lia | lia].
    apply ascii_of_nat_inj in E2; [| lia | lia].
    rewrite (Nat.div_mod_eq i 64), (Nat.div_mod_eq j 64). lia.
Qed.

Lemma count_from_le_starts (substr s : string) (skip : nat) :
  count_from substr skip s <= starts substr s.
Proof.
  revert skip. induction s as [| c s IH]; intros skip; [simpl; lia |].
  cbn [count_from starts].
  destruct skip as [| k].
  - destruct (prefix substr (String c s)).
    + specialize (IH (String.length substr - 1)). lia.
    + specialize (IH 0). lia.
  - specialize (IH k). lia.
Qed.

Lemma starts_le_length (substr s : string) : starts substr s <= String.length s.
Proof.
  induction s as [| c s IH]; [simpl; lia |].
  cbn [starts String.length]. destruct (prefix substr (String c s)); lia.
Qed.

Lemma indicator_sum_le_1 (f : nat -> bool) (l : list nat) :
  NoDup l ->
  (forall i j, In i l -> In j l -> f i = true -> f j = true -> i = j) ->
  list_sum (map (fun i => if f i then 1 else 0) l) <= 1.
Proof.
  induction 1 as [| x l Hx Hnd IH]; intros U; [simpl; lia |].
  cbn [map list_sum fold_right]. fold (list_sum (map (fun i => if f i then 1 else 0) l)).
  destruct (f x) eqn:Fx.
  - assert (Z : list_sum (map (fun i => if f i then 1 else 0) l) = 0).
    { clear IH. induction l as [| y l IHl]; [reflexivity |].
      cbn [map list_sum fold_right].
      destruct (f y) eqn:Fy.
      - exfalso. apply Hx. left. symmetry.
        apply U; [now left | right; now left | assumption | assumption].
      - apply IHl.
        + intros In'. apply Hx. now right.
        + now inversion Hnd.
        + intros i j Ii Ij. apply U.
          * destruct Ii; [now left | right; now right].
          * destruct Ij; [now left | right; now right]. }
    lia.
  - specialize (IH (fun i j Ii Ij => U i j (or_intror Ii) (or_intror Ij))). lia.
Qed.

Lemma list_sum_map_add (f g : nat -> nat) (l : list nat) :
  list_sum (map (fun i => f i + g i) l) =
  list_sum (map f l) + list_sum (map g l).
Proof.
  induction l as [| x l IH]; [reflexivity |].
  cbn [map list_sum fold_right] in *. fold (list_sum (map f l)) in *.
  fold (list_sum (map g l)) in *.
  fold (list_sum (map (fun i => f i + g i) l)) in *. lia.
Qed.

Lemma list_sum_map_le (f g : nat -> nat) (l : list nat) :
  (forall i, In i l -> f i <= g i) ->
  list_sum (map f l) <= list_sum (map g l).
Proof.
  induction l as [| x l IH]; intros H; [simpl; lia |].
  cbn [map list_sum fold_right].
  pose proof (H x (or_introl eq_refl)).
  specialize (IH (fun i Hi => H i (or_intror Hi))).
  unfold list_sum in IH. lia.
Qed.

Lemma starts_total (s : string) :
  list_sum (map (fun i => starts (string_of_byte i) s) (seq 0 256))
  <= String.length s.
Proof.
  induction s as [| c s IH].
  - assert (E : forall l : list nat, list_sum (map (fun _ => 0) l) = 0)
      by (induction l; simpl; auto).
    cbn [starts]. rewrite E. simpl; lia.
  - cbn [starts String.length].
    rewrite (list_sum_map_add
               (fun i => if prefix (string_of_byte i) (String c s) then 1 else 0)
               (fun i => starts (string_of_byte i) s)).
    pose proof (indicator_sum_le_1
                  (fun i => prefix (string_of_byte i) (String c s))
                  (seq 0 256) (seq_NoDup 256 0)) as H1.
    cbv beta in H1.
    assert (U : forall i j, In i (seq 0 256) -> In j (seq 0 256) ->
                  prefix (string_of_byte i) (String c s) = true ->
                  prefix (string_of_byte j) (String c s) = true -> i = j).
    { intros i j Ii Ij. apply in_seq in Ii, Ij.
      apply string_of_byte_prefix_unique; lia. }
    specialize (H1 U). lia.
Qed.

(** The 256 counts of [GetEntropy] add up to at most the length. *)
Lemma counts_total (data : string) :
  list_sum (counts data) <= String.length data.
Proof.
  unfold counts.
  etransitivity; [| apply starts_total].
  apply list_sum_map_le. intros i _.
  rewrite Count_string_of_byte. apply count_from_le_starts.
Qed.

Lemma counts_length (data : string) : List.length (counts data) = 256.
Proof. unfold counts. now rewrite length_map, length_seq. Qed.

End Counting.

(** ** The entropy as a sum of terms *)

Section EntropySum.
Local Open Scope R_scope.

Lemma ln_2_pos : 0 < ln 2.
Proof. pose proof ln_lt_2. lra. Qed.

Lemma ln_256 : ln 256 = 8 * ln 2.
Proof.
  replace 256 with (2 ^ 8) by (simpl; lra).
  rewrite ln_pow by lra. simpl INR. lra.
Qed.

Lemma ln_le_pred (y : R) : 0 < y -> ln y <= y - 1.
Proof.
  intros Hy. pose proof (exp_ineq1_le (ln y)) as H.
  rewrite exp_ln in H by assumption. lra.
Qed.

Lemma ln_nonpos (p : R) : 0 < p -> p <= 1 -> ln p <= 0.
Proof.
  intros H0 H1. pose proof (ln_le_pred p H0). lra.
Qed.

Lemma entropy_step_term (data : string) (acc : R) (i : nat) :
  entropy_step data acc i =
  acc + entropy_term (String.length data) (Count data (string_of_byte i)).
Proof.
  unfold entropy_step, entropy_term. cbv zeta.
  destruct (Rlt_dec 0 _); lra.
Qed.

Lemma fold_entropy_step (data : string) (l : list nat) (acc : R) :
  fold_left (entropy_step data) l acc =
  acc + Rsum (map (entropy_term (String.length data))
                (map (fun i => Count data (string_of_byte i)) l)).
Proof.
  revert acc. induction l as [| i l IH]; intros acc.
  - simpl. lra.
  - cbn [fold_left map Rsum fold_right].
    rewrite IH, entropy_step_term. unfold Rsum. lra.
Qed.

(** [GetEntropy] is the sum of the terms of its 256 counts. *)
Lemma GetEntropy_sum (data : string) :
  data <> EmptyString ->
  GetEntropy data = Rsum (map (entropy_term (String.length data)) (counts data)).
Proof.
  intros Hne. destruct data as [| c s]; [congruence |].
  unfold GetEntropy, counts. rewrite fold_entropy_step. lra.
Qed.

Lemma entropy_term_zero (n : nat) : entropy_term n 0 = 0.
Proof.
  unfold entropy_term. cbv zeta. simpl INR.
  destruct (Rlt_dec 0 (0 / INR n)) as [H | H]; [| reflexivity].
  unfold Rdiv in H. rewrite Rmult_0_l in H. lra.
Qed.

Lemma frequency_range (n c : nat) :
  (0 < n)%nat -> (c <= n)%nat -> 0 <= INR c / INR n <= 1.
Proof.
  intros Hn Hc.
  assert (0 < INR n) by (apply lt_0_INR; assumption).
  pose proof (pos_INR c). pose proof (le_INR _ _ Hc).
  split.
  - apply Rmult_le_pos; [assumption | left; now apply Rinv_0_lt_compat].
  - apply (Rmult_le_reg_r (INR n)); [assumption |].
    unfold Rdiv. rewrite Rmult_assoc, Rinv_l by lra. lra.
Qed.

Lemma entropy_term_nonneg (n c : nat) :
  (0 < n)%nat -> (c <= n)%nat -> 0 <= entropy_term n c.
Proof.
  intros Hn Hc. pose proof (frequency_range n c Hn Hc) as [_ H1].
  unfold entropy_term. cbv zeta.
  destruct (Rlt_dec 0 (INR c / INR n)) as [H0 | _]; [| lra].
  pose proof (ln_nonpos _ H0 H1) as Hl. pose proof ln_2_pos as H2.
  unfold Log2.
  assert (Hi : 0 < / ln 2) by now apply Rinv_0_lt_compat.
  assert (Hq : ln (INR c / INR n) * / ln 2 <= 0) by nra.
  change (0 <= - (INR c / INR n) * (ln (INR c / INR n) * / ln 2)). nra.
Qed.

(** The tangent bound at the uniform distribution: [- p ln p] is at most
    [p (ln 256 - 1) + 1/256]. *)
Lemma entropy_term_tangent (n c : nat) :
  (0 < n)%nat ->
  entropy_term n c * ln 2 <= INR c / INR n * (ln 256 - 1) + / 256.
Proof.
  intros Hn. pose proof ln_2_pos as H2.
  assert (Hp : 0 <= INR c / INR n).
  { apply Rmult_le_pos; [apply pos_INR |].
    left. apply Rinv_0_lt_compat. now apply lt_0_INR. }
  unfold entropy_term. cbv zeta. set (p := INR c / INR n) in *.
  destruct (Rlt_dec 0 p) as [H0 | H0].
  - assert (Hy : 0 < / (256 * p)) by (apply Rinv_0_lt_compat; lra).
    pose proof (ln_le_pred _ Hy) as H.
    rewrite ln_Rinv, ln_mult in H by lra.
    assert (E : p * / (256 * p) = / 256) by (field; lra).
    assert (M : p * (- (ln 256 + ln p)) <= p * (/ (256 * p) - 1))
      by (apply Rmult_le_compat_l; lra).
    unfold Log2.
    replace (- p * (ln p / ln 2) * ln 2) with (- p * ln p) by (field; lra).
    rewrite Rmult_minus_distr_l, E in M. lra.
  - assert (p = 0) by lra. rewrite H. lra.
Qed.

Lemma Rsum_tangent (n : nat) (cs : list nat) :
  (0 < n)%nat ->
  Rsum (map (entropy_term n) cs) * ln 2 <=
  INR (list_sum cs) / INR n * (ln 256 - 1) + INR (List.length cs) * / 256.
Proof.
  intros Hn. induction cs as [| c cs IH].
  - simpl. lra.
  - cbn [map Rsum fold_right list_sum List.length].
    fold (Rsum (map (entropy_term n) cs)). fold (list_sum cs).
    rewrite plus_INR, S_INR.
    pose proof (entropy_term_tangent n c Hn).
    unfold Rdiv in *. lra.
Qed.

Lemma Rsum_nonneg (n : nat) (cs : list nat) :
  (0 < n)%nat -> (forall c, In c cs -> (c <= n)%nat) ->
  0 <= Rsum (map (entropy_term n) cs).
Proof.
  intros Hn. induction cs as [| c cs IH]; intros H.
  - simpl. lra.
  - cbn [map Rsum fold_right]. fold (Rsum (map (entropy_term n) cs)).
    pose proof (entropy_term_nonneg n c Hn (H c (or_introl eq_refl))).
    specialize (IH (fun c' Hc' => H c' (or_intror Hc'))). lra.
Qed.

Lemma list_sum_bounds_each (cs : list nat) (c : nat) :
  In c cs -> (c <= list_sum cs)%nat.
Proof.
  induction cs as [| x cs IH]; intros Hin; [contradiction |].
  cbn [list_sum fold_right]. fold (list_sum cs).
  destruct Hin as [-> | Hin]; [lia | specialize (IH Hin); lia].
Qed.

(** Sub-distributions over 256 values have entropy in [[0, 8]]. *)
Lemma Rsum_entropy_range (n : nat) (cs : list nat) :
  (0 < n)%nat -> List.length cs = 256%nat -> (list_sum cs <= n)%nat ->
  0 <= Rsum (map (entropy_term n) cs) <= 8.
Proof.
  intros Hn Hlen Hsum. split.
  - apply Rsum_nonneg; [assumption |].
    intros c Hc. pose proof (list_sum_bounds_each cs c Hc). lia.
  - pose proof (Rsum_tangent n cs Hn) as H. rewrite Hlen in H.
    pose proof (frequency_range n (list_sum cs) Hn Hsum) as [F0 F1].
    pose proof ln_2_pos as H2. pose proof ln_lt_2 as H3.
    rewrite ln_256 in H.
    replace (INR 256) with 256 in H by (rewrite INR_IZR_INZ; reflexivity).
    apply (Rmult_le_reg_r (ln 2)); [assumption |].
    set (q := INR (list_sum cs) / INR n) in *.
    assert (q * (8 * ln 2 - 1) <= 1 * (8 * ln 2 - 1))
      by (apply Rmult_le_compat_r; lra).
    lra.
Qed.

End EntropySum.

(** ** [GetEntropy]: range, and the bytes from 128 on *)

Section EntropyClaims.
Local Open Scope R_scope.

(** C7: for every input string, the entropy computed by [GetEntropy] (over
    exact real arithmetic) lies between 0 and 8. *)
Theorem GetEntropy_range (data : string) : 0 <= GetEntropy data <= 8.
Proof.
  destruct data as [| c s] eqn:E.
  - simpl. lra.
  - rewrite GetEntropy_sum by discriminate.
    apply Rsum_entropy_range.
    + simpl. lia.
    + apply counts_length.
    + apply counts_total.
Qed.

Lemma shannon_term_entropy_term (data : string) (b : nat) :
  data <> EmptyString ->
  shannon_term data b =
  - entropy_term (String.length data) (occurrences (ascii_of_nat b) data).
Proof.
  intros Hne. unfold shannon_term, frequency, entropy_term. cbv zeta.
  assert (Hn : 0 < INR (String.length data)).
  { apply lt_0_INR. destruct data; [congruence | simpl; lia]. }
  destruct (Nat.eqb_spec (occurrences (ascii_of_nat b) data) 0) as [Z | NZ].
  - rewrite Z. fold (entropy_term (String.length data) 0).
    rewrite entropy_term_zero. lra.
  - set (c := occurrences (ascii_of_nat b) data) in *.
    assert (0 < INR c) by (apply lt_0_INR; lia).
    assert (0 < INR c / INR (String.length data))
      by (apply Rdiv_lt_0_compat; assumption).
    destruct (Rlt_dec 0 (INR c / INR (String.length data))); [lra | contradiction].
Qed.

Lemma ShannonEntropy_sum (data : string) :
  data <> EmptyString ->
  ShannonEntropy data =
  Rsum (map (entropy_term (String.length data)) (byte_counts data)).
Proof.
  intros Hne. destruct data as [| c s] eqn:E; [congruence |]. rewrite <- E in *.
  unfold ShannonEntropy. rewrite E at 1. unfold byte_counts.
  generalize (seq 0 256). intros l. induction l as [| b l IH].
  - simpl. lra.
  - cbn [fold_right map Rsum] in *. fold (Rsum) in *.
    rewrite shannon_term_entropy_term by assumption.
    unfold Rsum in *. lra.
Qed.

Lemma Rsum_nonzero (n : nat) (cs : list nat) :
  Rsum (map (entropy_term n) cs) =
  Rsum (map (entropy_term n) (filter nonzero cs)).
Proof.
  induction cs as [| c cs IH]; [reflexivity |].
  cbn [map Rsum fold_right filter]. fold (Rsum (map (entropy_term n) cs)).
  destruct c as [| c]; cbn [nonzero Nat.eqb negb].
  - rewrite entropy_term_zero, IH. unfold Rsum. lra.
  - cbn [map Rsum fold_right]. unfold Rsum in *. rewrite IH. reflexivity.
Qed.

Lemma Log2_half : Log2 (1 / 2) = -1.
Proof.
  unfold Log2. replace (1 / 2) with (/ 2) by lra.
  rewrite ln_Rinv by lra. field. pose proof ln_2_pos. lra.
Qed.

Lemma entropy_term_half : entropy_term 2 1 = 1 / 2.
Proof.
  unfold entropy_term. cbv zeta. simpl INR.
  replace (1 / (1 + 1)) with (1 / 2) by lra.
  destruct (Rlt_dec 0 (1 / 2)) as [_ | H]; [| lra].
  rewrite Log2_half. lra.
Qed.

(** C3: on the two bytes [0xC3 0xA9], [GetEntropy] counts one occurrence
    of [string(byte(233))] and none of any other pattern, and returns 1/2,
    while the byte-level Shannon entropy of the two distinct bytes is 1;
    on the empty string both are 0. *)
Theorem GetEntropy_two_byte_rune :
  GetEntropy e_acute = 1 / 2 /\ ShannonEntropy e_acute = 1 /\
  GetEntropy EmptyString = 0 /\ ShannonEntropy EmptyString = 0.
Proof.
  split; [| split; [| split; reflexivity]].
  - rewrite GetEntropy_sum by discriminate.
    rewrite Rsum_nonzero.
    replace (filter nonzero (counts e_acute)) with [1%nat] by (vm_compute; reflexivity).
    change (String.length e_acute) with 2%nat.
    cbn [map Rsum fold_right]. rewrite entropy_term_half. lra.
  - rewrite ShannonEntropy_sum by discriminate.
    rewrite Rsum_nonzero.
    replace (filter nonzero (byte_counts e_acute)) with [1%nat; 1%nat]
      by (vm_compute; reflexivity).
    change (String.length e_acute) with 2%nat.
    cbn [map Rsum fold_right]. rewrite entropy_term_half. lra.
Qed.

End EntropyClaims.

(** ** [GetEntropy] on strings of bytes below 128 *)

Section EntropyAscii.

Lemma prefix_empty (s : string) : prefix EmptyString s = true.
Proof. destruct s; reflexivity. Qed.

Lemma count_from_single (a : ascii) (s : string) :
  count_from (String a EmptyString) 0 s = occurrences a s.
Proof.
  induction s as [| c s IH]; [reflexivity |].
  cbn [count_from occurrences prefix String.length Nat.sub].
  destruct (ascii_dec a c) as [-> | ne].
  - rewrite prefix_empty, Ascii.eqb_refl, IH. reflexivity.
  - assert (E : Ascii.eqb c a = false) by (apply Ascii.eqb_neq; congruence).
    rewrite E, IH. reflexivity.
Qed.

Lemma starts_high (a1 a2 : ascii) (s : string) :
  128 <= nat_of_ascii a1 -> ascii_only s = true ->
  starts (String a1 (String a2 EmptyString)) s = 0.
Proof.
  intros Ha. induction s as [| c s IH]; [reflexivity |].
  cbn [ascii_only]. intros H. apply andb_prop in H as [Hc Hs].
  apply Nat.ltb_lt in Hc.
  cbn [starts prefix]. destruct (ascii_dec a1 c) as [-> | ne]; [lia |].
  now rewrite IH.
Qed.

Lemma occurrences_high (a : ascii) (s : string) :
  128 <= nat_of_ascii a -> ascii_only s = true -> occurrences a s = 0.
Proof.
  intros Ha. induction s as [| c s IH]; [reflexivity |].
  cbn [ascii_only]. intros H. apply andb_prop in H as [Hc Hs].
  apply Nat.ltb_lt in Hc. cbn [occurrences].
  assert (E : Ascii.eqb c a = false)
    by (apply Ascii.eqb_neq; intros ->; lia).
  now rewrite E, IH.
Qed.

(** On such a string the patterns count bytes. *)
Lemma Count_ascii (data : string) (i : nat) :
  i < 256 -> ascii_only data = true ->
  Count data (string_of_byte i) = occurrences (ascii_of_nat i) data.
Proof.
  intros Hi Hd. rewrite Count_string_of_byte. unfold string_of_byte.
  destruct (Nat.ltb_spec i 128) as [Li | Li].
  - apply count_from_single.
  - assert (i / 64 < 4) by (apply Nat.Div0.div_lt_upper_bound; lia).
    rewrite occurrences_high; [| rewrite nat_ascii_embedding; lia | assumption].
    apply Nat.le_0_r. etransitivity; [apply count_from_le_starts |].
    rewrite starts_high; [lia | | assumption].
    rewrite nat_ascii_embedding; lia.
Qed.

Lemma counts_ascii (data : string) :
  ascii_only data = true -> counts data = byte_counts data.
Proof.
  intros Hd. unfold counts, byte_counts. apply map_ext_in.
  intros i Hi. apply in_seq in Hi. apply Count_ascii; [lia | assumption].
Qed.

(** X1: on a string of bytes below 128, [GetEntropy] is the byte-level Shannon
    entropy. *)
Lemma GetEntropy_ascii (data : string) :
  ascii_only data = true -> GetEntropy data = ShannonEntropy data.
Proof.
  intros Hd. destruct data as [| c s] eqn:E; [reflexivity |]. rewrite <- E in *.
  assert (Hne : data <> EmptyString) by (rewrite E; discriminate).
  now rewrite GetEntropy_sum, ShannonEntropy_sum, counts_ascii.
Qed.

(** A single repeated byte has entropy 0. *)
Example GetEntropy_repeated_byte : GetEntropy "aaaaaaaa" = 0%R.
Proof.
  rewrite GetEntropy_sum by discriminate. rewrite Rsum_nonzero.
  replace (filter nonzero (counts "aaaaaaaa")) with [8] by (vm_compute; reflexivity).
  change (String.length "aaaaaaaa") with 8.
  cbn [map Rsum fold_right]. unfold entropy_term, Log2. cbv zeta.
  replace (INR 8 / INR 8)%R with 1%R by (simpl INR; field).
  destruct (Rlt_dec 0 1); [rewrite ln_1 | ]; lra.
Qed.

End EntropyAscii.

(** ** [FetchUrlAs] *)

Section Fetch.
Context {V : Type} (http : Http V).
Variables (urlStr auth : string) (v : V).

Lemma FetchUrlAs_sent (req : Request) :
  NewRequest http "GET" urlStr = inl req ->
  FetchUrlAs http urlStr auth v =
  match Do http (sent auth req) with
  | inl resp =>
      if (StatusCode resp =? 429)%Z then
        Returned (Some (errorString "rate limited"), v)
      else if (StatusCode resp =? 500)%Z then
        Returned (Some (errorString "internal server error"), v)
      else if negb (StatusCode resp =? 200)%Z then
        Returned
          (Some (errorString ("got " ++ Status resp ++ ", wanted 200 OK")), v)
      else
        match Body resp with
        | (contents, None) =>
            Returned (snd (Unmarshal http contents v),
                      fst (Unmarshal http contents v))
        | (_, Some _) => Returned (None, v)
        end
  | inr _ => Returned (None, v)
  end.
Proof.
  intros E. unfold FetchUrlAs. rewrite E.
  unfold StatusTooManyRequests, StatusInternalServerError, StatusOK.
  destruct (Do http _) as [resp | e]; [| reflexivity].
  destruct (StatusCode resp =? 429)%Z; [reflexivity |].
  destruct (StatusCode resp =? 500)%Z; [reflexivity |].
  destruct (StatusCode resp =? 200)%Z; [| reflexivity]. cbn [negb].
  destruct (Body resp) as [contents [e |]]; [reflexivity |].
  destruct (Unmarshal http contents v); reflexivity.
Qed.

(** The request carries the [Authorization] header exactly when [auth] is
    not empty. *)
Lemma sent_header (req : Request) :
  Header (sent auth req) =
  match auth with
  | EmptyString => Header req
  | String _ _ => (Header req ++ [("Authorization", auth)])%list
  end.
Proof. unfold sent. destruct auth; reflexivity. Qed.

(** X16: without a request the call does not return. *)
Lemma FetchUrlAs_no_request (e : error) :
  NewRequest http "GET" urlStr = inr e ->
  FetchUrlAs http urlStr auth v = Panicked NilDereference.
Proof. intros E. unfold FetchUrlAs. rewrite E. reflexivity. Qed.

(** A transport error is not returned: the [err] that is returned is the
    one of [http.NewRequest]. *)
Lemma FetchUrlAs_transport_error (req : Request) (e : error) :
  NewRequest http "GET" urlStr = inl req ->
  Do http (sent auth req) = inr e ->
  FetchUrlAs http urlStr auth v = Returned (None, v).
Proof. intros E D. rewrite (FetchUrlAs_sent req E), D. reflexivity. Qed.

(** C1: when the request gets a response, status 429 gives the error
    "rate limited", status 500 the error "internal server error", every
    other status but 200 the error "got <status text>, wanted 200 OK";
    the three errors differ from each other; with status 200 and a body
    that was read, the call returns what [json.Unmarshal] returns on the
    body and the target: no error and the decoded target, or the decode
    error. *)
Theorem FetchUrlAs_response (req : Request) (resp : Response) :
  NewRequest http "GET" urlStr = inl req ->
  Do http (sent auth req) = inl resp ->
  (StatusCode resp = 429%Z ->
   FetchUrlAs http urlStr auth v =
   Returned (Some (errorString "rate limited"), v)) /\
  (StatusCode resp = 500%Z ->
   FetchUrlAs http urlStr auth v =
   Returned (Some (errorString "internal server error"), v)) /\
  (StatusCode resp <> 429%Z -> StatusCode resp <> 500%Z ->
   StatusCode resp <> 200%Z ->
   FetchUrlAs http urlStr auth v =
   Returned (Some (errorString ("got " ++ Status resp ++ ", wanted 200 OK")), v)) /\
  (forall contents v',
     StatusCode resp = 200%Z -> Body resp = (contents, None) ->
     Unmarshal http contents v = (v', None) ->
     FetchUrlAs http urlStr auth v = Returned (None, v')) /\
  (forall contents v' e,
     StatusCode resp = 200%Z -> Body resp = (contents, None) ->
     Unmarshal http contents v = (v', Some e) ->
     FetchUrlAs http urlStr auth v = Returned (Some e, v')) /\
  errorString "rate limited" <> errorString "internal server error" /\
  (forall status,
     errorString ("got " ++ status ++ ", wanted 200 OK")
       <> errorString "rate limited" /\
     errorString ("got " ++ status ++ ", wanted 200 OK")
       <> errorString "internal server error").
Proof.
  intros E D. rewrite (FetchUrlAs_sent req E), D.
  repeat split.
  - intros ->. reflexivity.
  - intros ->. reflexivity.
  - intros N1 N2 N3.
    apply Z.eqb_neq in N1, N2, N3. now rewrite N1, N2, N3.
  - intros contents v' -> B U. cbn. now rewrite B, U.
  - intros contents v' e -> B U. cbn. now rewrite B, U.
  - discriminate.
  - discriminate.
  - discriminate.
Qed.

(** C10: with status 200 and a body that cannot be read, the call returns
    no error and leaves the target as it was. *)
Theorem FetchUrlAs_body_read_error
    (req : Request) (resp : Response) (partial : string) (e : error) :
  NewRequest http "GET" urlStr = inl req ->
  Do http (sent auth req) = inl resp ->
  StatusCode resp = 200%Z ->
  Body resp = (partial, Some e) ->
  FetchUrlAs http urlStr auth v = Returned (None, v).
Proof.
  intros E D S B. rewrite (FetchUrlAs_sent req E), D, S, B. reflexivity.
Qed.

End Fetch.

Lemma FetchUrlAs_response_witness :
  FetchUrlAs (answering (mkResponse 200 "200 OK" ("{}", None)))
    "https://api.github.com/events" "token t" "" = Returned (None, "{}").
Proof.
  pose proof (FetchUrlAs_response
                (answering (mkResponse 200 "200 OK" ("{}", None)))
                "https://api.github.com/events" "token t" ""
                (mkRequest "GET" "https://api.github.com/events" [])
                (mkResponse 200 "200 OK" ("{}", None))
                eq_refl eq_refl) as (_ & _ & _ & H & _).
  exact (H "{}" "{}" eq_refl eq_refl eq_refl).
Defined.

Lemma FetchUrlAs_body_read_error_witness :
  FetchUrlAs
    (answering (mkResponse 200 "200 OK"
                  ("{", Some (libError "io" "unexpected EOF"))))
    "https://api.github.com/events" "" "before" = Returned (None, "before").
Proof.
  exact (FetchUrlAs_body_read_error
           (answering (mkResponse 200 "200 OK"
                         ("{", Some (libError "io" "unexpected EOF"))))
           "https://api.github.com/events" "" "before"
           (mkRequest "GET" "https://api.github.com/events" [])
           _ "{" (libError "io" "unexpected EOF")
           eq_refl eq_refl eq_refl eq_refl).
Defined.

(** C2: against a server that refuses the connection, [FetchUrlAs] returns
    no error and leaves the target as it was; the transport error is lost. *)
Theorem FetchUrlAs_connection_refused :
  Do unreachable (mkRequest "GET" "http://127.0.0.1:1/" []) =
    inr connection_refused /\
  FetchUrlAs unreachable "http://127.0.0.1:1/" "" "before" =
    Returned (None, "before").
Proof. split; reflexivity. Qed.

(** ** [GetRandomToken] *)

Lemma Intn_range (rnd n : Z) :
  (0 < n)%Z -> exists i, Intn rnd n = Returned i /\ (0 <= i < n)%Z.
Proof.
  intros Hn. unfold Intn. destruct (Z.leb_spec n 0) as [H | H]; [lia |].
  exists (rnd mod n)%Z. split; [reflexivity | now apply Z.mod_pos_bound].
Qed.

(** X14: with a pool that is not empty the call returns one of its tokens. *)
Lemma GetRandomToken_nonempty (rnd : Z) (configSource : ConfigSource) :
  Tokens configSource <> [] ->
  exists token, GetRandomToken rnd configSource = Returned token /\
                In token (Tokens configSource).
Proof.
  intros Hne. unfold GetRandomToken.
  assert (Hlen : (0 < Z.of_nat (List.length (Tokens configSource)))%Z).
  { destruct (Tokens configSource); [congruence | simpl List.length; lia]. }
  destruct (Intn_range rnd _ Hlen) as (i & -> & Hi).
  unfold index. destruct (Z.ltb_spec i 0) as [H | _]; [lia |].
  destruct (nth_error (Tokens configSource) (Z.to_nat i)) as [t |] eqn:N.
  - exists t. split; [reflexivity | eapply nth_error_In; eassumption].
  - apply nth_error_None in N. lia.
Qed.

(** C5, as the code has it: with an empty pool the call panics inside
    [rand.Intn] with "invalid argument to Intn", whatever the random source
    draws; it returns neither a token nor an error, and the slice is not
    indexed. *)
Theorem GetRandomToken_empty_pool (rnd : Z) (configSource : ConfigSource) :
  Tokens configSource = [] ->
  GetRandomToken rnd configSource =
    Panicked (PanicValue "invalid argument to Intn") /\
  (forall token, GetRandomToken rnd configSource <> Returned token) /\
  (forall i len, GetRandomToken rnd configSource <> Panicked (IndexOutOfRange i len)).
Proof.
  intros E. unfold GetRandomToken. rewrite E. cbn.
  repeat split; intros; discriminate.
Qed.

Lemma GetRandomToken_empty_pool_witness :
  GetRandomToken 7 (mkConfigSource []) =
    Panicked (PanicValue "invalid argument to Intn").
Proof.
  exact (proj1 (GetRandomToken_empty_pool 7 (mkConfigSource []) eq_refl)).
Defined.

(** C5, as the claim has it: the call with an empty pool does not come back
    to its caller with a rejection; it does not return at all. *)
Lemma GetRandomToken_empty_pool_does_not_return :
  ~ exists result, GetRandomToken 7 (mkConfigSource []) = Returned result.
Proof. intros [result H]. discriminate H. Qed.

(** ** [GetCheckableFiles] *)

(** Induction on a tree, with the property for every entry of a directory. *)
Lemma node_tree_ind (P : node -> Prop) :
  (forall name e, P (Broken name e)) ->
  (forall name info readdir entries,
     Forall P entries -> P (Entry name info readdir entries)) ->
  forall n, P n.
Proof.
  intros HB HE.
  fix IH 1. intros [name e | name info readdir entries].
  - apply HB.
  - apply HE. induction entries as [| child rest IHrest].
    + constructor.
    + constructor; [apply IH | exact IHrest].
Qed.

Lemma int64_le (z : Z) : (0 <= z)%Z -> (int64 z <= z)%Z.
Proof.
  intros Hz. unfold int64.
  assert (((z + 2 ^ 63) mod 2 ^ 64 <= z + 2 ^ 63)%Z)
    by (apply Z.mod_le; lia).
  lia.
Qed.

Lemma Contains_occurs (s substr : string) :
  Contains s substr = true <->
  exists before after, s = (before ++ substr ++ after)%string.
Proof.
  assert (P : forall p t, prefix p t = true <-> exists after, t = (p ++ after)%string).
  { induction p as [| a p IHp]; intros t.
    - split; [intros _; exists t; reflexivity | intros _; destruct t; reflexivity].
    - destruct t as [| b t]; cbn [prefix].
      + split; [discriminate | intros [after H]; discriminate H].
      + destruct (ascii_dec a b) as [-> | ne].
        * rewrite IHp. split; intros [after H]; exists after.
          -- cbn. now rewrite H.
          -- cbn in H. congruence.
        * split; [discriminate | intros [after H]; cbn in H; congruence]. }
  induction s as [| c s IH]; cbn [Contains].
  - rewrite orb_false_r, P. split.
    + intros [after H]. exists EmptyString, after. exact H.
    + intros [[| b before] [after H]]; [exists after; exact H | discriminate H].
  - rewrite orb_true_iff, P, IH. split.
    + intros [[after H] | [before [after H]]].
      * exists EmptyString, after. exact H.
      * exists (String c before), after. cbn. now rewrite H.
    + intros [[| b before] [after H]].
      * left. exists after. exact H.
      * right. exists before, after. cbn in H. congruence.
Qed.

Section Enumerator.
Context {MatchFile : Type} (os : Platform MatchFile).
Variables (maximumFileSizeKb : Z) (blacklists : ConfigBlacklists).

(** The walk function never returns an error, and adds the candidate file
    of an entry exactly when [keeps] holds of it. *)
Lemma checkable_visit (fileList : list MatchFile) (path : string)
    (file : FileInfo) :
  checkable os maximumFileSizeKb blacklists fileList path (Visit file) =
  ((fileList ++ emitted os maximumFileSizeKb blacklists [(path, file)])%list,
   None).
Proof.
  unfold emitted, checkable. cbn [filter keeps].
  destruct (IsDir file || (Size file >? maximumFileSizeKb)%Z);
    cbn [negb andb map]; [now rewrite app_nil_r |].
  destruct (extension_blacklisted os blacklists path);
    cbn [negb andb map]; [now rewrite app_nil_r |].
  destruct (path_blacklisted os blacklists path);
    cbn [negb andb map fst]; [now rewrite app_nil_r | reflexivity].
Qed.

Lemma checkable_error (fileList : list MatchFile) (path : string)
    (info : option FileInfo) (err : error) :
  checkable os maximumFileSizeKb blacklists fileList path (VisitErr info err) =
  (fileList, None).
Proof. reflexivity. Qed.

Lemma checkable_directory (fileList : list MatchFile) (path : string)
    (file : FileInfo) :
  IsDir file = true ->
  checkable os maximumFileSizeKb blacklists fileList path (Visit file) =
  (fileList, None).
Proof. intros D. unfold checkable. now rewrite D. Qed.

Lemma emitted_app (l1 l2 : list (string * FileInfo)) :
  emitted os maximumFileSizeKb blacklists (l1 ++ l2) =
  (emitted os maximumFileSizeKb blacklists l1 ++
   emitted os maximumFileSizeKb blacklists l2)%list.
Proof. unfold emitted. now rewrite filter_app, map_app. Qed.

(** The walk of a tree visits every entry that can be reached, and adds
    the candidate files of those that [keeps] holds of, in the order of
    the walk. *)
Lemma walk_checkable (n : node) :
  forall (path : string) (fileList : list MatchFile),
    walk os (checkable os maximumFileSizeKb blacklists) path n fileList =
    ((fileList ++
      emitted os maximumFileSizeKb blacklists (visited os path n))%list, None).
Proof.
  induction n as [name e | name info readdir entries IH] using node_tree_ind;
    intros path fileList.
  - cbn [walk visited].
    rewrite checkable_error. unfold emitted. cbn [filter map].
    now rewrite app_nil_r.
  - cbn [walk visited].
    destruct (IsDir info) eqn:D; cbn [negb].
    2: { apply checkable_visit. }
    destruct readdir as [err |].
    { rewrite checkable_error. unfold emitted. cbn [filter map].
      now rewrite app_nil_r. }
    rewrite (checkable_directory _ _ _ D).
    assert (K : emitted os maximumFileSizeKb blacklists
                  ((path, info) ::
                   flat_map (fun child =>
                               visited os (Join os path (node_name child)) child)
                     entries) =
                emitted os maximumFileSizeKb blacklists
                  (flat_map (fun child =>
                               visited os (Join os path (node_name child)) child)
                     entries)).
    { unfold emitted. cbn [filter keeps]. now rewrite D. }
    rewrite K. clear K. revert fileList.
    induction IH as [| child rest Hchild _ IHrest]; intros fileList.
    + unfold emitted. cbn [flat_map filter map].
      now rewrite app_nil_r.
    + cbn [flat_map]. rewrite Hchild, emitted_app, app_assoc.
      destruct child; apply IHrest.
Qed.

Lemma Walk_checkable (root : string) (tree : node)
    (fileList : list MatchFile) :
  Walk os (checkable os maximumFileSizeKb blacklists) root tree fileList =
  ((fileList ++
    emitted os maximumFileSizeKb blacklists (visited os root tree))%list, None).
Proof. unfold Walk. now rewrite walk_checkable. Qed.

End Enumerator.

Section EnumeratorClaims.
Context {MatchFile : Type} (os : Platform MatchFile).
Variables (dir : string) (maximumFileSize : Z) (blacklists : ConfigBlacklists).

Lemma GetCheckableFiles_emitted (tree : node) :
  GetCheckableFiles os dir maximumFileSize blacklists tree =
  emitted os (int64 (maximumFileSize * 1024)) blacklists (visited os dir tree).
Proof. unfold GetCheckableFiles. now rewrite Walk_checkable. Qed.

Lemma extension_blacklisted_iff (path : string) :
  extension_blacklisted os blacklists path = true <->
  In (ToLower os (Ext os path)) (Extensions blacklists).
Proof.
  unfold extension_blacklisted. rewrite existsb_exists. split.
  - intros (e & He & Eq). apply String.eqb_eq in Eq. now rewrite Eq.
  - intros H. exists (ToLower os (Ext os path)). split; [exact H |].
    apply String.eqb_refl.
Qed.

Lemma path_blacklisted_iff (path : string) :
  path_blacklisted os blacklists path = true <->
  exists indicator, In indicator (Paths blacklists) /\
                    Contains (ToSlash os path) indicator = true.
Proof. unfold path_blacklisted. apply existsb_exists. Qed.

(** C4, as the code has it: every candidate file that [GetCheckableFiles]
    returns is the candidate file of an entry of the tree that is not a
    directory, whose size is at most [maximumFileSize * 1024] as the code
    computes it in [int64], and at most the product itself when
    [maximumFileSize] is not negative; whose lowercase extension is no
    blacklisted extension; and whose slash-normalised path contains no
    blacklisted path substring. *)
Theorem GetCheckableFiles_sound (tree : node) (m : MatchFile) :
  In m (GetCheckableFiles os dir maximumFileSize blacklists tree) ->
  exists path file,
    In (path, file) (visited os dir tree) /\
    m = NewMatchFile os path /\
    IsDir file = false /\
    (Size file <= int64 (maximumFileSize * 1024))%Z /\
    ((0 <= maximumFileSize)%Z -> (Size file <= maximumFileSize * 1024)%Z) /\
    (forall skippableExt, In skippableExt (Extensions blacklists) ->
       ToLower os (Ext os path) <> skippableExt) /\
    (forall indicator, In indicator (Paths blacklists) ->
       Contains (ToSlash os path) indicator = false).
Proof.
  rewrite GetCheckableFiles_emitted. unfold emitted.
  intros H. apply in_map_iff in H as ([path file] & <- & H).
  apply filter_In in H as [Hin K]. cbn [keeps] in K.
  apply andb_prop in K as [K Kp]. apply andb_prop in K as [Ks Ke].
  apply negb_true_iff in Ks, Ke, Kp.
  apply orb_false_iff in Ks as [Kd Ks].
  assert (Hs : (Size file <= int64 (maximumFileSize * 1024))%Z).
  { destruct (Z.gtb_spec (Size file) (int64 (maximumFileSize * 1024)));
      [discriminate | assumption]. }
  exists path, file. repeat split; try assumption.
  - intros Hm. pose proof (int64_le (maximumFileSize * 1024)). lia.
  - intros e He Eq. rewrite <- Eq in He.
    apply extension_blacklisted_iff in He. congruence.
  - intros p Hp. destruct (Contains (ToSlash os path) p) eqn:C; [| reflexivity].
    assert (path_blacklisted os blacklists path = true)
      by (apply path_blacklisted_iff; eauto).
    congruence.
Qed.

(** C6, as the code has it: a visited file within the size limit is left
    out exactly when its lowercased extension is one of the blacklisted
    extensions as they are written, or its slash-normalised path has one
    of the blacklisted path indicators, as it is written, as a substring;
    otherwise its candidate file is appended. *)
Theorem blacklist_matching_exact (path : string) (file : FileInfo)
    (fileList : list MatchFile) :
  IsDir file = false ->
  (Size file <= int64 (maximumFileSize * 1024))%Z ->
  let by_extension := In (ToLower os (Ext os path)) (Extensions blacklists) in
  let by_path :=
    exists indicator before after,
      In indicator (Paths blacklists) /\
      ToSlash os path = (before ++ indicator ++ after)%string in
  (by_extension \/ by_path ->
   checkable os (int64 (maximumFileSize * 1024)) blacklists
     fileList path (Visit file) = (fileList, None)) /\
  (~ (by_extension \/ by_path) ->
   checkable os (int64 (maximumFileSize * 1024)) blacklists
     fileList path (Visit file) =
   ((fileList ++ [NewMatchFile os path])%list, None)).
Proof.
  intros D Hs by_extension by_path. unfold checkable. rewrite D. cbn [orb].
  destruct (Z.gtb_spec (Size file) (int64 (maximumFileSize * 1024))) as [G | _];
    [lia |].
  assert (Pe : extension_blacklisted os blacklists path = true <-> by_extension)
    by apply extension_blacklisted_iff.
  assert (Pp : path_blacklisted os blacklists path = true <-> by_path).
  { rewrite path_blacklisted_iff. unfold by_path. split.
    - intros (p & Hp & C). apply Contains_occurs in C as (b & a & E). eauto.
    - intros (p & b & a & Hp & E). exists p. split; [exact Hp |].
      apply Contains_occurs. eauto. }
  destruct (extension_blacklisted os blacklists path).
  { split; [reflexivity |]. intros N. exfalso. apply N. left. now apply Pe. }
  destruct (path_blacklisted os blacklists path).
  { split; [reflexivity |]. intros N. exfalso. apply N. right. now apply Pp. }
  split; [| reflexivity].
  intros [H | H]; [apply Pe in H | apply Pp in H]; discriminate H.
Qed.

(** C8: the result is made of the candidate files of all the entries
    that the walk reaches without error, in the order of the walk; an
    entry that cannot be stat-ed, and a directory that cannot be read, are
    passed over as if they were not there, and the entries before and
    after them are enumerated all the same. *)
Theorem GetCheckableFiles_skips_unreadable :
  (forall tree,
     Walk os (checkable os (int64 (maximumFileSize * 1024)) blacklists)
       dir tree [] =
     (GetCheckableFiles os dir maximumFileSize blacklists tree, None) /\
     GetCheckableFiles os dir maximumFileSize blacklists tree =
     emitted os (int64 (maximumFileSize * 1024)) blacklists
       (visited os dir tree)) /\
  (forall name info before after broken e,
     GetCheckableFiles os dir maximumFileSize blacklists
       (Entry name info None (before ++ Broken broken e :: after)) =
     GetCheckableFiles os dir maximumFileSize blacklists
       (Entry name info None (before ++ after))) /\
  (forall name info before after unreadable size err inside,
     GetCheckableFiles os dir maximumFileSize blacklists
       (Entry name info None
          (before ++
           Entry unreadable (mkFileInfo unreadable size true) (Some err) inside
           :: after)) =
     GetCheckableFiles os dir maximumFileSize blacklists
       (Entry name info None (before ++ after))).
Proof.
  split; [| split].
  - intros tree. split; [| apply GetCheckableFiles_emitted].
    rewrite GetCheckableFiles_emitted, Walk_checkable. reflexivity.
  - intros. rewrite !GetCheckableFiles_emitted. f_equal.
    cbn [visited]. now rewrite !flat_map_app.
  - intros. rewrite !GetCheckableFiles_emitted. f_equal.
    cbn [visited]. now rewrite !flat_map_app.
Qed.

End EnumeratorClaims.

Lemma GetCheckableFiles_sound_witness :
  exists path file,
    In (path, file) (visited posix "/repo" small_repo) /\
    "/repo/a.go" = NewMatchFile posix path /\
    IsDir file = false /\
    (Size file <= int64 (256 * 1024))%Z /\
    ((0 <= 256)%Z -> (Size file <= 256 * 1024)%Z) /\
    (forall skippableExt, In skippableExt (Extensions small_blacklists) ->
       ToLower posix (Ext posix path) <> skippableExt) /\
    (forall indicator, In indicator (Paths small_blacklists) ->
       Contains (ToSlash posix path) indicator = false).
Proof.
  apply (GetCheckableFiles_sound posix "/repo" 256 small_blacklists small_repo).
  vm_compute. left. reflexivity.
Defined.

Lemma blacklist_matching_exact_witness :
  checkable posix (int64 (256 * 1024)) small_blacklists
    [] "/repo/vendor/x.go" (Visit (mkFileInfo "x.go" 5 false)) = ([], None).
Proof.
  apply (blacklist_matching_exact posix 256 small_blacklists
           "/repo/vendor/x.go" (mkFileInfo "x.go" 5 false) []).
  - reflexivity.
  - vm_compute. discriminate.
  - right. exists "vendor/", "/repo/", "x.go". split; [left |]; reflexivity.
Defined.

(** The enumerator on the clone with an entry that cannot be stat-ed: the
    files before and after it are returned; the file above the size limit,
    the file with the blacklisted extension and the file under the
    blacklisted path are not. *)
Example GetCheckableFiles_small_repo :
  GetCheckableFiles posix "/repo" 256 small_blacklists small_repo =
  ["/repo/a.go"; "/repo/c.go"].
Proof. vm_compute. reflexivity. Qed.

(** C6, as the claim has it: the directory [Node_Modules] and the extension
    of [b.png] match the blacklist entries [node_modules] and [.PNG] when
    letter case is ignored, and yet neither rule leaves the files out: both
    are returned. *)
Lemma blacklist_matching_is_case_sensitive :
  Contains (ascii_ToLower (ToSlash posix "/repo/Node_Modules/a.js"))
    (ascii_ToLower "node_modules") = true /\
  path_blacklisted posix mixed_case_blacklists "/repo/Node_Modules/a.js" = false /\
  ascii_ToLower (Ext posix "/repo/b.png") = ascii_ToLower ".PNG" /\
  extension_blacklisted posix mixed_case_blacklists "/repo/b.png" = false /\
  GetCheckableFiles posix "/repo" 256 mixed_case_blacklists mixed_case_repo =
  ["/repo/Node_Modules/a.js"; "/repo/b.png"].
Proof. vm_compute. repeat split. Qed.


(** * More of the helpers *)

(** ** [GetEntropy]: strings it scores as 0 *)

Section EntropyZero.
Local Open Scope R_scope.

Lemma GetEntropy_ascii_witness :
  GetEntropy "ghp_token" = ShannonEntropy "ghp_token".
Proof. apply (GetEntropy_ascii "ghp_token"). reflexivity. Defined.

Lemma entropy_term_full (n : nat) : (0 < n)%nat -> entropy_term n n = 0.
Proof.
  intros Hn. unfold entropy_term, Log2. cbv zeta.
  assert (0 < INR n) by now apply lt_0_INR.
  replace (INR n / INR n) with 1 by (field; lra).
  destruct (Rlt_dec 0 1); [rewrite ln_1 |]; lra.
Qed.

Lemma Rsum_zero_or_full (n : nat) (cs : list nat) :
  (forall x, In x cs -> x = 0%nat \/ x = n) ->
  Rsum (map (entropy_term n) cs) = 0.
Proof.
  induction cs as [| c cs IH]; intros H; [reflexivity |].
  cbn [map Rsum fold_right]. fold (Rsum (map (entropy_term n) cs)).
  rewrite IH by (intros x Hx; apply H; now right).
  destruct (H c (or_introl eq_refl)) as [-> | ->].
  - rewrite entropy_term_zero. lra.
  - destruct n as [| k]; [rewrite entropy_term_zero; lra |].
    rewrite entropy_term_full by lia. lra.
Qed.

Lemma length_repeat_byte (c : ascii) (n : nat) :
  String.length (repeat_byte c n) = n.
Proof. induction n as [| k IH]; [reflexivity | simpl; now rewrite IH]. Qed.

Lemma occurrences_repeat_byte (a c : ascii) (n : nat) :
  occurrences a (repeat_byte c n) = if Ascii.eqb c a then n else 0%nat.
Proof.
  induction n as [| k IH]; [now destruct (Ascii.eqb c a) |].
  cbn [repeat_byte occurrences]. rewrite IH.
  destruct (Ascii.eqb c a); reflexivity.
Qed.

Lemma starts_pair_repeat_byte (a1 a2 c : ascii) (n : nat) :
  a1 <> a2 ->
  starts (String a1 (String a2 EmptyString)) (repeat_byte c n) = 0%nat.
Proof.
  intros Hne. induction n as [| k IH]; [reflexivity |].
  cbn [repeat_byte starts]. rewrite IH.
  cbn [prefix]. destruct (ascii_dec a1 c) as [E1 | _]; [| reflexivity].
  destruct k as [| k']; cbn [repeat_byte prefix]; [reflexivity |].
  destruct (ascii_dec a2 c) as [E2 | _]; [congruence | reflexivity].
Qed.

(** From 128 on the pattern is two different bytes, the first of them
    [0xC2] or [0xC3]. *)
Lemma string_of_byte_pair (i : nat) :
  (128 <= i)%nat -> (i < 256)%nat ->
  exists a1 a2,
    string_of_byte i = String a1 (String a2 EmptyString) /\ a1 <> a2 /\
    (nat_of_ascii a1 = 194%nat \/ nat_of_ascii a1 = 195%nat).
Proof.
  intros Lo Hi. unfold string_of_byte.
  destruct (Nat.ltb_spec i 128) as [L | _]; [lia |].
  assert (D : (i / 64 = 2 \/ i / 64 = 3)%nat).
  { assert (i / 64 < 4)%nat by (apply Nat.Div0.div_lt_upper_bound; lia).
    assert (2 <= i / 64)%nat by (apply Nat.div_le_lower_bound; lia). lia. }
  assert (M : (i mod 64 < 64)%nat) by (apply Nat.mod_upper_bound; lia).
  eexists _, _. split; [reflexivity |]. split.
  - intros E. apply ascii_of_nat_inj in E; lia.
  - rewrite nat_ascii_embedding by lia. lia.
Qed.

Lemma counts_repeat_byte (c : ascii) (n : nat) (x : nat) :
  In x (counts (repeat_byte c n)) -> x = 0%nat \/ x = n.
Proof.
  unfold counts. intros H. apply in_map_iff in H as (i & <- & Hi).
  apply in_seq in Hi. rewrite Count_string_of_byte.
  destruct (Nat.ltb_spec i 128) as [L | L].
  - unfold string_of_byte. apply Nat.ltb_lt in L. rewrite L.
    rewrite count_from_single, occurrences_repeat_byte.
    destruct (Ascii.eqb c (ascii_of_nat i)); auto.
  - destruct (string_of_byte_pair i L) as (a1 & a2 & -> & Hne & _); [lia |].
    left. apply Nat.le_0_r.
    etransitivity; [apply count_from_le_starts |].
    now rewrite starts_pair_repeat_byte.
Qed.

(** X2: a string that repeats one byte, whichever byte and however often, has
    entropy 0. *)
Theorem GetEntropy_repeat_byte (c : ascii) (n : nat) :
  GetEntropy (repeat_byte c n) = 0.
Proof.
  destruct n as [| k]; [reflexivity |].
  rewrite GetEntropy_sum by discriminate.
  rewrite length_repeat_byte.
  apply Rsum_zero_or_full. apply counts_repeat_byte.
Qed.

Lemma occurrences_low (a : ascii) (s : string) :
  (nat_of_ascii a < 128)%nat -> high_only s = true -> occurrences a s = 0%nat.
Proof.
  intros Ha. induction s as [| c s IH]; [reflexivity |].
  cbn [high_only]. intros H. apply andb_prop in H as [H Hs].
  apply andb_prop in H as [H _]. apply andb_prop in H as [H _].
  apply Nat.leb_le in H. cbn [occurrences].
  assert (E : Ascii.eqb c a = false)
    by (apply Ascii.eqb_neq; intros ->; lia).
  now rewrite E, IH.
Qed.

Lemma starts_pair_high_only (a1 a2 : ascii) (s : string) :
  nat_of_ascii a1 = 194%nat \/ nat_of_ascii a1 = 195%nat ->
  high_only s = true ->
  starts (String a1 (String a2 EmptyString)) s = 0%nat.
Proof.
  intros Ha. induction s as [| c s IH]; [reflexivity |].
  cbn [high_only]. intros H. apply andb_prop in H as [H Hs].
  apply andb_prop in H as [H H195]. apply andb_prop in H as [_ H194].
  apply negb_true_iff, Nat.eqb_neq in H194, H195.
  cbn [starts prefix]. destruct (ascii_dec a1 c) as [-> | _]; [lia |].
  now rewrite IH.
Qed.

Lemma counts_high_only (data : string) (x : nat) :
  high_only data = true -> In x (counts data) -> x = 0%nat \/ x = String.length data.
Proof.
  intros Hd H. unfold counts in H. apply in_map_iff in H as (i & <- & Hi).
  apply in_seq in Hi. rewrite Count_string_of_byte. left.
  destruct (Nat.ltb_spec i 128) as [L | L].
  - unfold string_of_byte. pose proof L as L'. apply Nat.ltb_lt in L'. rewrite L'.
    rewrite count_from_single. apply occurrences_low; [| assumption].
    rewrite nat_ascii_embedding; lia.
  - destruct (string_of_byte_pair i L) as (a1 & a2 & -> & _ & Ha); [lia |].
    apply Nat.le_0_r.
    etransitivity; [apply count_from_le_starts |].
    now rewrite starts_pair_high_only.
Qed.

(** X3: a string made of bytes from 128 on, none of them [0xC2] or [0xC3], has
    entropy 0 whatever the bytes are: none of the 256 patterns occurs in
    it. *)
Theorem GetEntropy_high_only (data : string) :
  high_only data = true -> GetEntropy data = 0.
Proof.
  intros Hd. destruct data as [| c s] eqn:E; [reflexivity |]. rewrite <- E in *.
  rewrite GetEntropy_sum by (rewrite E; discriminate).
  apply Rsum_zero_or_full. intros x. now apply counts_high_only.
Qed.

Lemma GetEntropy_high_only_witness :
  GetEntropy
    (String (ascii_of_nat 255)
       (String (ascii_of_nat 254) (String (ascii_of_nat 253) EmptyString))) = 0.
Proof. apply GetEntropy_high_only. reflexivity. Defined.

End EntropyZero.

(** ** [GetHash] *)

Section Hash.

(** The model computes SHA-1: the digests of the empty string and of the
    standard test messages. *)
Example GetHash_empty :
  GetHash "" = "da39a3ee5e6b4b0d3255bfef95601890afd80709".
Proof. vm_compute. reflexivity. Qed.

Example GetHash_abc :
  GetHash "abc" = "a9993e364706816aba3e25717850c26c9cd0d89d".
Proof. vm_compute. reflexivity. Qed.

Example GetHash_two_blocks :
  GetHash "abcdbcdecdefdefgefghfghighijhijkijkljklmklmnlmnomnopnopq" =
  "84983e441c3bd26ebaae4aa1f95129e5e54670f1".
Proof. vm_compute. reflexivity. Qed.

Lemma length_big_endian (n : nat) (z : Z) : List.length (big_endian n z) = n.
Proof. induction n as [| k IH]; [reflexivity | simpl; now rewrite IH]. Qed.

Lemma length_sha1_Sum (msg : list Z) : List.length (sha1_Sum msg) = 20.
Proof.
  unfold sha1_Sum.
  destruct (sha1_blocks _ sha1_init (sha1_pad msg)) as [[[[h0 h1] h2] h3] h4].
  now rewrite !length_app, !length_big_endian.
Qed.

Lemma length_EncodeToString (src : list Z) :
  String.length (EncodeToString src) = 2 * List.length src.
Proof.
  induction src as [| b rest IH]; [reflexivity |].
  cbn [EncodeToString String.length List.length]. rewrite IH. lia.
Qed.

Lemma get_In (n : nat) (s : string) (c : ascii) :
  get n s = Some c -> In c (list_ascii_of_string s).
Proof.
  revert n. induction s as [| a s IH]; intros n; [discriminate |].
  destruct n as [| k]; cbn [get list_ascii_of_string].
  - intros E. left. congruence.
  - intros E. right. now apply IH with k.
Qed.

Lemma hex_digit_table (n : Z) :
  In (hex_digit n) (list_ascii_of_string "0123456789abcdef").
Proof.
  unfold hex_digit.
  destruct (get (Z.to_nat n) "0123456789abcdef") as [c |] eqn:G.
  - now apply get_In with (Z.to_nat n).
  - left. reflexivity.
Qed.

Lemma EncodeToString_table (src : list Z) (c : ascii) :
  In c (list_ascii_of_string (EncodeToString src)) ->
  In c (list_ascii_of_string "0123456789abcdef").
Proof.
  induction src as [| b rest IH]; [contradiction |].
  cbn [EncodeToString list_ascii_of_string].
  intros [<- | [<- | H]]; [apply hex_digit_table | apply hex_digit_table | auto].
Qed.

(** The padded message is a whole number of 64-byte blocks, so that the
    digest covers every byte of the input and the length. *)
Lemma length_sha1_pad (msg : list Z) :
  (List.length (sha1_pad msg) mod 64 = 0)%nat /\
  (List.length msg + 9 <= List.length (sha1_pad msg))%nat.
Proof.
  unfold sha1_pad. cbv zeta.
  rewrite length_app. cbn [List.length].
  rewrite length_app, repeat_length, length_big_endian.
  set (len := List.length msg).
  pose proof (Nat.div_mod_eq len 64) as D.
  pose proof (Nat.mod_upper_bound len 64 ltac:(lia)) as B.
  set (r := len mod 64) in *. set (q := len / 64) in *.
  assert (Z : (119 - r) mod 64 = if r <=? 55 then 55 - r else 119 - r).
  { destruct (Nat.leb_spec r 55).
    - replace (119 - r) with ((55 - r) + 1 * 64) by lia.
      rewrite Nat.Div0.mod_add. apply Nat.mod_small. lia.
    - apply Nat.mod_small. lia. }
  rewrite Z. split; [| destruct (r <=? 55); lia].
  destruct (Nat.leb_spec r 55).
  - replace (len + S (55 - r + 8)) with (0 + (q + 1) * 64) by lia.
    now rewrite Nat.Div0.mod_add.
  - replace (len + S (119 - r + 8)) with (0 + (q + 2) * 64) by lia.
    now rewrite Nat.Div0.mod_add.
Qed.

(** X4: for every input the hash is 40 characters long, each of them one of
    [0123456789abcdef]. *)
Theorem GetHash_format (s : string) :
  String.length (GetHash s) = 40 /\
  forall c, In c (list_ascii_of_string (GetHash s)) ->
            In c (list_ascii_of_string "0123456789abcdef").
Proof.
  unfold GetHash. split.
  - now rewrite length_EncodeToString, length_sha1_Sum.
  - apply EncodeToString_table.
Qed.

End Hash.

(** ** [GetTempDir] and [PathExists] *)

Lemma Stat_missing (fs : FileSystem) (path : string) (r : bool + error) :
  Stat fs path = Some r ->
  (IsNotExist (stat_error r) = true <->
   fs path = None /\ through_file fs path = false).
Proof.
  unfold Stat. destruct (supported path); [| discriminate].
  intros E. injection E as <-. destruct (fs path) as [kind |].
  - cbn. split; [discriminate | intros [H _]; discriminate H].
  - destruct (through_file fs path); cbn.
    + split; [discriminate | intros [_ H]; discriminate H].
    + split; [auto | reflexivity].
Qed.

Lemma PathExists_Some (fs : FileSystem) (path : string) (kind : bool) :
  supported path = true -> fs path = Some kind ->
  PathExists fs path = Some true.
Proof.
  intros S E. unfold PathExists, Stat. now rewrite S, E.
Qed.

Lemma PathExists_None (fs : FileSystem) (path : string) :
  supported path = true -> fs path = None ->
  PathExists fs path = Some false.
Proof.
  intros S E. unfold PathExists, Stat. rewrite S, E.
  destruct (through_file fs path); reflexivity.
Qed.

Lemma within_refl (dir : string) : within dir dir = true.
Proof. unfold within. now rewrite String.eqb_refl. Qed.

Section TempDir.
Variable join : string -> string -> string.
Variables (fs : FileSystem) (prefix suffix : string).

Lemma GetTempDir_removes (kind : bool) :
  supported (join prefix suffix) = true ->
  fs (join prefix suffix) = Some kind ->
  through_file fs (join prefix suffix) = false ->
  GetTempDir join fs prefix suffix =
  Some (join prefix suffix,
        fun q => if within (join prefix suffix) q then None else fs q).
Proof.
  intros S E T. unfold GetTempDir, Stat, RemoveAll. cbv zeta.
  now rewrite S, E, T.
Qed.

Lemma GetTempDir_makes :
  supported (join prefix suffix) = true ->
  fs (join prefix suffix) = None ->
  through_file fs (join prefix suffix) = false ->
  GetTempDir join fs prefix suffix =
  Some (join prefix suffix,
        fun q =>
          if String.eqb q (join prefix suffix)
             || existsb (String.eqb q) (ancestors (join prefix suffix))
          then match fs q with Some k => Some k | None => Some true end
          else fs q).
Proof.
  intros S E T. unfold GetTempDir, Stat, MkdirAll. cbv zeta.
  now rewrite S, E, T.
Qed.

(** X5: when the directory exists it is removed with everything under it and
    is not made again: after the call the returned path does not exist;
    the paths outside it are as before. *)
Theorem GetTempDir_existing (kind : bool) :
  supported (join prefix suffix) = true ->
  fs (join prefix suffix) = Some kind ->
  through_file fs (join prefix suffix) = false ->
  exists fs',
    GetTempDir join fs prefix suffix = Some (join prefix suffix, fs') /\
    PathExists fs' (join prefix suffix) = Some false /\
    (forall path, within (join prefix suffix) path = true -> fs' path = None) /\
    (forall path, within (join prefix suffix) path = false -> fs' path = fs path).
Proof.
  intros S E T. eexists. split; [now apply (GetTempDir_removes kind) |].
  split; [| split].
  - apply PathExists_None; [exact S |]. now rewrite within_refl.
  - intros path W. now rewrite W.
  - intros path W. now rewrite W.
Qed.



End TempDir.

Lemma GetTempDir_existing_witness :
  exists fs',
    GetTempDir (Join posix) used_tmp "/tmp" "shhgit" = Some ("/tmp/shhgit", fs') /\
    PathExists fs' "/tmp/shhgit" = Some false /\
    (forall path, within "/tmp/shhgit" path = true -> fs' path = None) /\
    (forall path, within "/tmp/shhgit" path = false -> fs' path = used_tmp path).
Proof.
  exact (GetTempDir_existing (Join posix) used_tmp "/tmp" "shhgit" true
           eq_refl eq_refl eq_refl).
Defined.



(** ** [GetDirectorySize] *)

Lemma int64_range (z : Z) : (- 2 ^ 63 <= int64 z < 2 ^ 63)%Z.
Proof.
  unfold int64.
  pose proof (Z.mod_pos_bound (z + 2 ^ 63) (2 ^ 64) ltac:(lia)). lia.
Qed.

Lemma int64_small (z : Z) : (- 2 ^ 63 <= z < 2 ^ 63)%Z -> int64 z = z.
Proof.
  intros H. unfold int64. rewrite Z.mod_small by lia. lia.
Qed.

Lemma int64_add_l (a b : Z) : int64 (int64 a + b) = int64 (a + b).
Proof.
  unfold int64.
  replace ((a + 2 ^ 63) mod 2 ^ 64 - 2 ^ 63 + b + 2 ^ 63)%Z
    with ((a + 2 ^ 63) mod 2 ^ 64 + b)%Z by lia.
  rewrite Zplus_mod_idemp_l.
  replace (a + 2 ^ 63 + b)%Z with (a + b + 2 ^ 63)%Z by lia. reflexivity.
Qed.

Section DirectorySize.
Context {MatchFile : Type} (os : Platform MatchFile).

(** On a tree without errors the walk adds the size of every file that is
    not a directory to the size it starts from, in [int64]. *)
Lemma walk_add_size (n : node) :
  readable n = true ->
  forall (path : string) (size : Z),
    (- 2 ^ 63 <= size < 2 ^ 63)%Z ->
    walk os add_size path n size =
    (int64 (size + total_size (visited os path n)), None).
Proof.
  induction n as [name e | name info readdir entries IH] using node_tree_ind;
    intros R path size Hs; [discriminate |].
  cbn [readable] in R. cbn [walk visited].
  destruct (IsDir info) eqn:D; cbn [negb orb] in *.
  - destruct readdir as [err |]; [discriminate |].
    cbn [add_size]. rewrite D. cbn [negb total_size fold_right snd]. rewrite D.
    fold (total_size
            (flat_map (fun child => visited os (Join os path (node_name child)) child)
               entries)).
    revert size Hs.
    induction IH as [| child rest Hchild _ IHrest]; intros size Hs.
    + cbn [flat_map total_size fold_right].
      rewrite Z.add_0_r. now rewrite int64_small.
    + cbn [forallb] in R. apply andb_prop in R as [Rc Rr].
      cbn [flat_map]. rewrite (Hchild Rc _ _ Hs).
      assert (E : forall l1 l2, total_size (l1 ++ l2) = (total_size l1 + total_size l2)%Z).
      { intros l1 l2. unfold total_size. induction l1 as [| x l1 IHl]; [reflexivity |].
        cbn [app fold_right]. rewrite IHl. destruct (IsDir (snd x)); lia. }
      rewrite E, Z.add_assoc.
      set (tc := total_size (visited os (Join os path (node_name child)) child)).
      rewrite <- (int64_add_l (size + tc)).
      destruct child; [discriminate Rc |].
      apply (IHrest Rr). apply int64_range.
  - cbn [add_size]. rewrite D. cbn [negb total_size fold_right snd]. rewrite D.
    now rewrite Z.add_0_r.
Qed.

(** X8: on a tree in which every entry can be stat-ed and every directory
    read, the result is the sum of the sizes of all the files that are not
    directories, as [int64] keeps it, and no error; the sum itself when it
    fits. *)
Theorem GetDirectorySize_readable (dir : string) (tree : node) :
  readable tree = true ->
  GetDirectorySize os dir tree =
    (int64 (total_size (visited os dir tree)), None) /\
  ((- 2 ^ 63 <= total_size (visited os dir tree) < 2 ^ 63)%Z ->
   GetDirectorySize os dir tree = (total_size (visited os dir tree), None)).
Proof.
  intros R. unfold GetDirectorySize, Walk. cbv zeta.
  rewrite (walk_add_size tree R) by lia. cbn [Z.add].
  split; [reflexivity |]. intros H. now rewrite int64_small.
Qed.

(** X9: the walk of the entries of a directory, up to one that cannot be
    stat-ed: the entries before it are added, the error ends the walk and
    the entries after it are not looked at. *)
Theorem GetDirectorySize_stops_at_error
    (dir name broken : string) (info : FileInfo) (e : error)
    (before after : list node) :
  IsDir info = true ->
  forallb readable before = true ->
  e <> SkipDir ->
  GetDirectorySize os dir
    (Entry name info None (before ++ Broken broken e :: after)) =
  (fst (GetDirectorySize os dir (Entry name info None before)), Some e).
Proof.
  intros D R Ne. unfold GetDirectorySize, Walk. cbv zeta.
  cbn [walk]. rewrite D. cbn [negb add_size]. rewrite D. cbn [negb].
  assert (H0 : (- 2 ^ 63 <= 0 < 2 ^ 63)%Z) by lia.
  revert H0. generalize 0%Z as size.
  induction before as [| child rest IH]; intros size Hs.
  - cbn [app add_size node_name walk]. destruct e; try congruence; reflexivity.
  - cbn [forallb] in R. apply andb_prop in R as [Rc Rr].
    cbn [app]. rewrite !(walk_add_size child Rc _ _ Hs).
    destruct child; [discriminate Rc |].
    apply (IH Rr). apply int64_range.
Qed.

End DirectorySize.

Lemma GetDirectorySize_readable_witness :
  GetDirectorySize posix "/repo" mixed_case_repo = (30%Z, None).
Proof.
  apply (GetDirectorySize_readable posix "/repo" mixed_case_repo eq_refl).
  vm_compute. split; [discriminate | reflexivity].
Defined.

Lemma GetDirectorySize_stops_at_error_witness :
  GetDirectorySize posix "/repo" small_repo =
  (10%Z, Some (libError "os" "lstat /repo/b.go: permission denied")).
Proof.
  exact (GetDirectorySize_stops_at_error posix "/repo" "repo" "b.go"
           (mkFileInfo "repo" 4096 true)
           (libError "os" "lstat /repo/b.go: permission denied")
           [regular "a.go" 10]
           [regular "c.go" 30; regular "big.bin" 300000; regular "logo.PNG" 40;
            directory "vendor" [regular "x.go" 5]]
           eq_refl eq_refl ltac:(discriminate)).
Defined.

(** ** [GetFilesInPath] *)

Lemma append_empty_r (s : string) : (s ++ EmptyString)%string = s.
Proof. induction s as [| c s IH]; [reflexivity | cbn; now rewrite IH]. Qed.

(** [filepath.Ext] gives a suffix of the path that is empty or starts with
    a dot. *)
Lemma ext_from_suffix (path e : string) :
  ext_from path = Some e ->
  (e = EmptyString \/ exists rest, e = String "."%char rest) /\
  exists stem, path = (stem ++ e)%string.
Proof.
  revert e. induction path as [| c rest IH]; intros e; [discriminate |].
  cbn [ext_from]. destruct (ext_from rest) as [e' |].
  - intros E. injection E as <-. destruct (IH e' eq_refl) as [Hd [stem Hs]].
    split; [exact Hd |]. exists (String c stem). cbn. now rewrite <- Hs.
  - destruct (Ascii.eqb_spec c "."%char) as [-> | _].
    + intros E. injection E as <-. split; [right; eauto |].
      now exists EmptyString.
    + destruct (Ascii.eqb c "/"%char); [| discriminate].
      intros E. injection E as <-. split; [now left |].
      exists (String c rest). now rewrite append_empty_r.
Qed.

Lemma posix_Ext_suffix (path : string) :
  (posix_Ext path = EmptyString \/
   exists rest, posix_Ext path = String "."%char rest) /\
  exists stem, path = (stem ++ posix_Ext path)%string.
Proof.
  unfold posix_Ext. destruct (ext_from path) as [e |] eqn:E.
  - now apply ext_from_suffix.
  - split; [now left |]. exists path. now rewrite append_empty_r.
Qed.

Section FilesInPath.
Context {MatchFile : Type} (os : Platform MatchFile).
Variables (env : Directories) (dir ext : string).

Lemma matches_loop (path : string) (files : list FileInfo) (matches : list string) :
  fold_left
    (fun matches file =>
       if String.eqb (Ext os (Name file)) ext
       then (matches ++ [Join os path (Name file)])%list
       else matches)
    files matches =
  (matches ++
   map (fun file => Join os path (Name file))
     (filter (fun file => String.eqb (Ext os (Name file)) ext) files))%list.
Proof.
  revert matches. induction files as [| file files IH]; intros matches.
  - cbn. now rewrite app_nil_r.
  - cbn [fold_left filter]. rewrite IH.
    destruct (String.eqb (Ext os (Name file)) ext); [| reflexivity].
    cbn [map]. now rewrite <- app_assoc.
Qed.

Lemma GetFilesInPath_Done (cwd : string) (files : list FileInfo) :
  Getwd env = inl cwd ->
  ReadDir env (Join os cwd dir) = inl files ->
  GetFilesInPath os env dir ext =
  Done (map (fun file => Join os (Join os cwd dir) (Name file))
          (filter (fun file => String.eqb (Ext os (Name file)) ext) files)).
Proof.
  intros G R. unfold GetFilesInPath. rewrite G, R. now rewrite matches_loop.
Qed.

(** X10: when the working directory is known and the directory can be read,
    the result is, in the order of the directory, the joined path of every
    entry whose name has exactly the extension [ext], directories among
    them; when either fails the process ends and nothing is returned. *)
Theorem GetFilesInPath_outcome :
  match Getwd env with
  | inr _ => GetFilesInPath os env dir ext = Fatal "Failed to get cwd?"
  | inl cwd =>
      match ReadDir env (Join os cwd dir) with
      | inr _ =>
          GetFilesInPath os env dir ext =
          Fatal ("Couldn't read files in: " ++ Join os cwd dir)
      | inl files =>
          GetFilesInPath os env dir ext =
          Done (map (fun file => Join os (Join os cwd dir) (Name file))
                  (filter (fun file => String.eqb (Ext os (Name file)) ext)
                     files))
      end
  end.
Proof.
  destruct (Getwd env) as [cwd | e] eqn:G.
  - destruct (ReadDir env (Join os cwd dir)) as [files | e] eqn:R.
    + now apply GetFilesInPath_Done.
    + unfold GetFilesInPath. now rewrite G, R.
  - unfold GetFilesInPath. now rewrite G.
Qed.

(** X11: an extension that is not empty and does not start with a dot matches
    no file: when the call returns, the result is empty whatever the
    directory holds. *)
Theorem GetFilesInPath_extension_without_dot :
  (forall path, Ext os path = EmptyString \/
                exists rest, Ext os path = String "."%char rest) ->
  ext <> EmptyString ->
  (forall rest, ext <> String "."%char rest) ->
  GetFilesInPath os env dir ext = Done [] \/
  exists message, GetFilesInPath os env dir ext = Fatal message.
Proof.
  intros Law Hne Hdot.
  destruct (Getwd env) as [cwd | e] eqn:G.
  2: { right. unfold GetFilesInPath. rewrite G. eauto. }
  destruct (ReadDir env (Join os cwd dir)) as [files | e] eqn:R.
  2: { right. unfold GetFilesInPath. rewrite G, R. eauto. }
  left. rewrite (GetFilesInPath_Done cwd files G R). f_equal.
  replace (filter (fun file => String.eqb (Ext os (Name file)) ext) files)
    with (@nil FileInfo); [reflexivity |].
  symmetry. rewrite <- (filter_false files). apply filter_ext.
  intros file. apply String.eqb_neq. intros E.
  destruct (Law (Name file)) as [Z | [rest Z]]; rewrite Z in E.
  - now apply Hne.
  - now apply (Hdot rest).
Qed.

(** X12: the name of every file that is returned ends with [ext], byte for
    byte. *)
Theorem GetFilesInPath_suffix (cwd : string) (files : list FileInfo)
    (matches : list string) (path : string) :
  (forall path, exists stem, path = (stem ++ Ext os path)%string) ->
  Getwd env = inl cwd ->
  ReadDir env (Join os cwd dir) = inl files ->
  GetFilesInPath os env dir ext = Done matches ->
  In path matches ->
  exists file stem,
    In file files /\ Name file = (stem ++ ext)%string /\
    path = Join os (Join os cwd dir) (Name file).
Proof.
  intros Law G R H Hin. rewrite (GetFilesInPath_Done cwd files G R) in H.
  injection H as <-. apply in_map_iff in Hin as (file & <- & Hf).
  apply filter_In in Hf as [Hf E]. apply String.eqb_eq in E.
  destruct (Law (Name file)) as [stem Hs]. rewrite E in Hs.
  exists file, stem. auto.
Qed.

End FilesInPath.

Lemma GetFilesInPath_extension_without_dot_witness :
  GetFilesInPath posix (listing ["rules.yaml"; "yaml"]) "config" "yaml" = Done [] \/
  exists message,
    GetFilesInPath posix (listing ["rules.yaml"; "yaml"]) "config" "yaml" =
    Fatal message.
Proof.
  apply (GetFilesInPath_extension_without_dot posix
           (listing ["rules.yaml"; "yaml"]) "config" "yaml").
  - intros path. apply posix_Ext_suffix.
  - discriminate.
  - discriminate.
Defined.

Lemma GetFilesInPath_suffix_witness :
  exists file stem,
    In file [mkFileInfo "rules.yaml" 1 false; mkFileInfo "notes.YAML" 1 false] /\
    Name file = (stem ++ ".yaml")%string /\
    "/home/shhgit/config/rules.yaml" =
    Join posix (Join posix "/home/shhgit" "config") (Name file).
Proof.
  apply (GetFilesInPath_suffix posix (listing ["rules.yaml"; "notes.YAML"])
           "config" ".yaml" "/home/shhgit" _
           ["/home/shhgit/config/rules.yaml"]).
  - intros path. apply posix_Ext_suffix.
  - reflexivity.
  - reflexivity.
  - reflexivity.
  - left. reflexivity.
Defined.

(** ** [CloneGitRepository] and [CloneMercurialRepository] *)

Lemma timeoutSecs_exact (timeout : Z) :
  (0 <= timeout <= 9223372036)%Z -> timeoutSecs timeout = (timeout * Second)%Z.
Proof.
  intros H. unfold timeoutSecs, Second.
  rewrite (int64_small timeout) by lia. apply int64_small. lia.
Qed.

Lemma timeoutSecs_wraps (timeout : Z) :
  (9223372036 < timeout <= 18446744073)%Z -> (timeoutSecs timeout < 0)%Z.
Proof.
  intros H. unfold timeoutSecs, Second.
  rewrite (int64_small timeout) by lia. unfold int64.
  replace ((timeout * 1000000000 + 2 ^ 63) mod 2 ^ 64)%Z
    with (timeout * 1000000000 + 2 ^ 63 - 2 ^ 64)%Z; [lia |].
  apply Z.mod_unique with 1%Z; lia.
Qed.

(** X13: both clone functions run one command and return its error as it is.
    The time allowed to the command is [timeout] seconds for a timeout of
    up to 9223372036 seconds, 0 included; from there up to 18446744073
    seconds the product wraps in [int64] and the time allowed is
    negative. *)
Theorem clone_timeout (Run : Cmd -> option error) (url dir : string)
    (timeout : Z) :
  (0 <= timeout <= 18446744073)%Z ->
  CloneGitRepository Run url dir timeout = Run (git_clone url dir timeout) /\
  CloneMercurialRepository Run url dir timeout = Run (hg_clone url dir timeout) /\
  Timeout (git_clone url dir timeout) = Timeout (hg_clone url dir timeout) /\
  ((timeout <= 9223372036)%Z ->
   Timeout (git_clone url dir timeout) = (timeout * Second)%Z) /\
  ((9223372036 < timeout)%Z -> (Timeout (git_clone url dir timeout) < 0)%Z).
Proof.
  intros H. repeat split.
  - unfold CloneGitRepository. now destruct (Run _).
  - unfold CloneMercurialRepository. now destruct (Run _).
  - intros L. apply timeoutSecs_exact. lia.
  - intros L. apply timeoutSecs_wraps. lia.
Qed.

Lemma clone_timeout_witness :
  Timeout (git_clone "https://github.com/eth0izzle/shhgit" "/tmp/shhgit/r" 10) =
  (10 * Second)%Z.
Proof.
  apply (clone_timeout (fun _ => None) "https://github.com/eth0izzle/shhgit"
           "/tmp/shhgit/r" 10); lia.
Defined.

(** ** [GetRandomToken] with a pool that is not empty *)

Lemma GetRandomToken_nonempty_witness :
  exists token,
    GetRandomToken 5 (mkConfigSource ["t0"; "t1"; "t2"]) = Returned token /\
    In token ["t0"; "t1"; "t2"].
Proof.
  apply (GetRandomToken_nonempty 5 (mkConfigSource ["t0"; "t1"; "t2"])).
  discriminate.
Defined.

(** X15: every token of the pool is returned for some draw of the random
    source: the token at index [i] for the draw [i]. *)
Theorem GetRandomToken_reaches (configSource : ConfigSource) (i : nat)
    (token : string) :
  nth_error (Tokens configSource) i = Some token ->
  GetRandomToken (Z.of_nat i) configSource = Returned token.
Proof.
  intros N. unfold GetRandomToken, Intn.
  assert (L : i < List.length (Tokens configSource))
    by (apply nth_error_Some; congruence).
  destruct (Z.leb_spec (Z.of_nat (List.length (Tokens configSource))) 0) as [H | H];
    [lia |].
  rewrite Z.mod_small by lia. unfold index.
  destruct (Z.ltb_spec (Z.of_nat i) 0) as [H0 | _]; [lia |].
  now rewrite Nat2Z.id, N.
Qed.

Lemma GetRandomToken_reaches_witness :
  GetRandomToken 2 (mkConfigSource ["t0"; "t1"; "t2"]) = Returned "t2".
Proof.
  exact (GetRandomToken_reaches (mkConfigSource ["t0"; "t1"; "t2"]) 2 "t2" eq_refl).
Defined.

(** ** [FetchUrlAs]: what a result tells the caller *)

Lemma FetchUrlAs_no_request_witness :
  FetchUrlAs invalid_url ":" "" "before" = Panicked NilDereference.
Proof.
  exact (FetchUrlAs_no_request invalid_url ":" "" "before"
           (libError "net/url" "parse :: missing protocol scheme") eq_refl).
Defined.

Section FetchResults.
Context {V : Type} (http : Http V).
Variables (urlStr auth : string) (v v' : V).

Lemma FetchUrlAs_Returned (result : option error * V) :
  FetchUrlAs http urlStr auth v = Returned result ->
  exists req, NewRequest http "GET" urlStr = inl req.
Proof.
  unfold FetchUrlAs. destruct (NewRequest http "GET" urlStr) as [req | e].
  - eauto.
  - discriminate.
Qed.

(** X17: a nil error is returned in three cases, which the caller cannot tell
    apart by the error: the client failed and the target is as it was; the
    status was 200, the body could not be read and the target is as it
    was; or the status was 200 and the body was decoded into the
    target. *)
Theorem FetchUrlAs_nil :
  FetchUrlAs http urlStr auth v = Returned (None, v') ->
  exists req,
    NewRequest http "GET" urlStr = inl req /\
    ((exists e, Do http (sent auth req) = inr e /\ v' = v) \/
     (exists resp partial e,
        Do http (sent auth req) = inl resp /\ StatusCode resp = 200%Z /\
        Body resp = (partial, Some e) /\ v' = v) \/
     (exists resp contents,
        Do http (sent auth req) = inl resp /\ StatusCode resp = 200%Z /\
        Body resp = (contents, None) /\
        Unmarshal http contents v = (v', None))).
Proof.
  intros H. destruct (FetchUrlAs_Returned _ H) as [req E].
  exists req. split; [exact E |].
  rewrite (FetchUrlAs_sent http urlStr auth v req E) in H.
  destruct (Do http (sent auth req)) as [resp | e].
  2: { left. exists e. split; [reflexivity | congruence]. }
  destruct (Z.eqb_spec (StatusCode resp) 429); [discriminate |].
  destruct (Z.eqb_spec (StatusCode resp) 500); [discriminate |].
  destruct (Z.eqb_spec (StatusCode resp) 200) as [S |]; [| discriminate].
  cbn [negb] in H. right.
  destruct (Body resp) as [contents [e |]] eqn:B.
  - left. exists resp, contents, e. repeat split; congruence.
  - right. exists resp, contents. repeat split; try assumption.
    destruct (Unmarshal http contents v) as [w o]. cbn in H. congruence.
Qed.

(** X18: an error that is returned is one of the three status errors, with the
    target as it was, or the error of decoding the body of a response
    with status 200: never an error of the client or of reading the
    body. *)
Theorem FetchUrlAs_error (err : error) :
  FetchUrlAs http urlStr auth v = Returned (Some err, v') ->
  exists req resp,
    NewRequest http "GET" urlStr = inl req /\
    Do http (sent auth req) = inl resp /\
    ((StatusCode resp = 429%Z /\ err = errorString "rate limited" /\ v' = v) \/
     (StatusCode resp = 500%Z /\ err = errorString "internal server error" /\
      v' = v) \/
     (StatusCode resp <> 429%Z /\ StatusCode resp <> 500%Z /\
      StatusCode resp <> 200%Z /\
      err = errorString ("got " ++ Status resp ++ ", wanted 200 OK") /\ v' = v) \/
     (StatusCode resp = 200%Z /\
      exists contents,
        Body resp = (contents, None) /\
        Unmarshal http contents v = (v', Some err))).
Proof.
  intros H. destruct (FetchUrlAs_Returned _ H) as [req E].
  rewrite (FetchUrlAs_sent http urlStr auth v req E) in H.
  destruct (Do http (sent auth req)) as [resp | e] eqn:D; [| discriminate].
  exists req, resp. split; [exact E |]. split; [exact D |].
  destruct (Z.eqb_spec (StatusCode resp) 429) as [S1 | S1].
  { left. repeat split; congruence. }
  destruct (Z.eqb_spec (StatusCode resp) 500) as [S2 | S2].
  { right. left. repeat split; congruence. }
  destruct (Z.eqb_spec (StatusCode resp) 200) as [S3 | S3]; cbn [negb] in H.
  2: { right. right. left. repeat split; congruence. }
  right. right. right. split; [exact S3 |].
  destruct (Body resp) as [contents [e |]] eqn:B; [discriminate |].
  exists contents. split; [reflexivity |].
  destruct (Unmarshal http contents v) as [w o]. cbn in H. congruence.
Qed.

End FetchResults.

Lemma FetchUrlAs_nil_witness :
  exists req,
    NewRequest unreachable "GET" "http://127.0.0.1:1/" = inl req /\
    ((exists e, Do unreachable (sent "" req) = inr e /\ "before" = "before") \/
     (exists resp partial e,
        Do unreachable (sent "" req) = inl resp /\ StatusCode resp = 200%Z /\
        Body resp = (partial, Some e) /\ "before" = "before") \/
     (exists resp contents,
        Do unreachable (sent "" req) = inl resp /\ StatusCode resp = 200%Z /\
        Body resp = (contents, None) /\
        Unmarshal unreachable contents "before" = ("before", None))).
Proof.
  exact (FetchUrlAs_nil unreachable "http://127.0.0.1:1/" "" "before" "before"
           eq_refl).
Defined.

Lemma FetchUrlAs_error_witness :
  exists req resp,
    NewRequest (answering (mkResponse 404 "404 Not Found" ("", None)))
      "GET" "https://api.github.com/x" = inl req /\
    Do (answering (mkResponse 404 "404 Not Found" ("", None))) (sent "" req) =
      inl resp /\
    ((StatusCode resp = 429%Z /\
      errorString "got 404 Not Found, wanted 200 OK" = errorString "rate limited" /\
      "before" = "before") \/
     (StatusCode resp = 500%Z /\
      errorString "got 404 Not Found, wanted 200 OK" =
        errorString "internal server error" /\
      "before" = "before") \/
     (StatusCode resp <> 429%Z /\ StatusCode resp <> 500%Z /\
      StatusCode resp <> 200%Z /\
      errorString "got 404 Not Found, wanted 200 OK" =
        errorString ("got " ++ Status resp ++ ", wanted 200 OK") /\
      "before" = "before") \/
     (StatusCode resp = 200%Z /\
      exists contents,
        Body resp = (contents, None) /\
        Unmarshal (answering (mkResponse 404 "404 Not Found" ("", None)))
          contents "before" =
        ("before", Some (errorString "got 404 Not Found, wanted 200 OK")))).
Proof.
  exact (FetchUrlAs_error (answering (mkResponse 404 "404 Not Found" ("", None)))
           "https://api.github.com/x" "" "before" "before"
           (errorString "got 404 Not Found, wanted 200 OK") eq_refl).
Defined.

(** ** [GetCheckableFiles]: the limit and the blacklists *)

Lemma lower_lower (c : ascii) : lower (lower c) = lower c.
Proof.
  unfold lower. cbv zeta.
  destruct ((65 <=? nat_of_ascii c) && (nat_of_ascii c <=? 90)) eqn:U;
    [| now rewrite U].
  apply andb_prop in U as [U1 U2]. apply Nat.leb_le in U1, U2.
  rewrite nat_ascii_embedding by lia.
  destruct (Nat.leb_spec (nat_of_ascii c + 32) 90) as [L | _]; [lia |].
  now rewrite andb_false_r.
Qed.

Lemma ascii_ToLower_idempotent (s : string) :
  ascii_ToLower (ascii_ToLower s) = ascii_ToLower s.
Proof.
  induction s as [| c s IH]; [reflexivity |].
  cbn [ascii_ToLower]. now rewrite lower_lower, IH.
Qed.

Lemma Contains_empty (s : string) : Contains s EmptyString = true.
Proof. destruct s; reflexivity. Qed.

Section Blacklists.
Context {MatchFile : Type} (os : Platform MatchFile).
Variables (dir : string) (maximumFileSize : Z) (tree : node).

Lemma emitted_ext (K1 K2 : Z) (bl1 bl2 : ConfigBlacklists)
    (l : list (string * FileInfo)) :
  (forall entry, In entry l -> keeps os K1 bl1 entry = keeps os K2 bl2 entry) ->
  emitted os K1 bl1 l = emitted os K2 bl2 l.
Proof. intros H. unfold emitted. f_equal. now apply filter_ext_in. Qed.

Lemma emitted_incl (K1 K2 : Z) (bl1 bl2 : ConfigBlacklists)
    (l : list (string * FileInfo)) :
  (forall entry, In entry l ->
     keeps os K1 bl1 entry = true -> keeps os K2 bl2 entry = true) ->
  incl (emitted os K1 bl1 l) (emitted os K2 bl2 l).
Proof.
  intros H m Hm. unfold emitted in *.
  apply in_map_iff in Hm as (entry & <- & Hf).
  apply filter_In in Hf as [Hin K].
  apply in_map_iff. exists entry. split; [reflexivity |].
  apply filter_In. auto.
Qed.

Lemma emitted_none (K : Z) (bl : ConfigBlacklists)
    (l : list (string * FileInfo)) :
  (forall entry, In entry l -> keeps os K bl entry = false) ->
  emitted os K bl l = [].
Proof.
  intros H. unfold emitted.
  rewrite (filter_ext_in _ (fun _ => false) l H), filter_false. reflexivity.
Qed.

(** X19: with both blacklists empty nothing but the size limit leaves a file
    out: the result is made of all the visited files that are not
    directories and whose size is within the limit. *)
Theorem GetCheckableFiles_empty_blacklists :
  GetCheckableFiles os dir maximumFileSize (mkConfigBlacklists [] []) tree =
  map (fun entry => NewMatchFile os (fst entry))
    (filter
       (fun entry =>
          negb (IsDir (snd entry)) &&
          (Size (snd entry) <=? int64 (maximumFileSize * 1024))%Z)
       (visited os dir tree)).
Proof.
  rewrite GetCheckableFiles_emitted. unfold emitted. f_equal.
  apply filter_ext. intros [path file]. cbn [keeps snd].
  unfold extension_blacklisted, path_blacklisted. cbn [Extensions Paths existsb negb].
  rewrite !andb_true_r, negb_orb. f_equal.
  rewrite Z.gtb_ltb, Z.leb_antisym. reflexivity.
Qed.

(** X20: an empty string among the path indicators leaves every file out. *)
Theorem GetCheckableFiles_empty_indicator (blacklists : ConfigBlacklists) :
  In EmptyString (Paths blacklists) ->
  GetCheckableFiles os dir maximumFileSize blacklists tree = [].
Proof.
  intros H. rewrite GetCheckableFiles_emitted. apply emitted_none.
  intros [path file] _. cbn [keeps].
  assert (P : path_blacklisted os blacklists path = true).
  { apply path_blacklisted_iff. exists EmptyString.
    split; [exact H | apply Contains_empty]. }
  rewrite P. cbn [negb]. now rewrite andb_false_r.
Qed.

(** X21: adding entries to the blacklists only takes files away: every file
    returned under the larger blacklists is returned under the smaller
    ones. *)
Theorem GetCheckableFiles_blacklists_monotone (small large : ConfigBlacklists) :
  incl (Extensions small) (Extensions large) ->
  incl (Paths small) (Paths large) ->
  incl (GetCheckableFiles os dir maximumFileSize large tree)
       (GetCheckableFiles os dir maximumFileSize small tree).
Proof.
  intros He Hp. rewrite !GetCheckableFiles_emitted. apply emitted_incl.
  intros [path file] _. cbn [keeps]. intros K.
  apply andb_prop in K as [K Kp]. apply andb_prop in K as [Ks Ke].
  rewrite Ks. cbn [andb].
  apply negb_true_iff in Ke, Kp. apply andb_true_intro. split.
  - apply negb_true_iff, not_true_is_false. intros X.
    apply extension_blacklisted_iff in X. apply He in X.
    apply extension_blacklisted_iff in X. congruence.
  - apply negb_true_iff, not_true_is_false. intros X.
    apply path_blacklisted_iff in X as (p & Hin & C). apply Hp in Hin.
    assert (path_blacklisted os large path = true)
      by (apply path_blacklisted_iff; eauto).
    congruence.
Qed.

(** X22: a blacklisted extension that lowercasing changes matches no file: the
    result is the same without it. *)
Theorem GetCheckableFiles_extension_not_lowercase
    (skippableExt : string) (extensions paths : list string) :
  (forall s, ToLower os (ToLower os s) = ToLower os s) ->
  ToLower os skippableExt <> skippableExt ->
  GetCheckableFiles os dir maximumFileSize
    (mkConfigBlacklists (skippableExt :: extensions) paths) tree =
  GetCheckableFiles os dir maximumFileSize
    (mkConfigBlacklists extensions paths) tree.
Proof.
  intros Idem Hne. rewrite !GetCheckableFiles_emitted. apply emitted_ext.
  intros [path file] _. cbn [keeps].
  unfold extension_blacklisted, path_blacklisted. cbn [Extensions Paths existsb].
  assert (E : String.eqb (ToLower os (Ext os path)) skippableExt = false).
  { apply String.eqb_neq. intros X. apply Hne. rewrite <- X. apply Idem. }
  now rewrite E.
Qed.

(** X23: between two limits below [2 ^ 53] kilobytes the larger one returns
    every file that the smaller one returns. *)
Theorem GetCheckableFiles_limit_monotone (larger : Z)
    (blacklists : ConfigBlacklists) :
  (0 <= maximumFileSize <= larger)%Z -> (larger < 2 ^ 53)%Z ->
  incl (GetCheckableFiles os dir maximumFileSize blacklists tree)
       (GetCheckableFiles os dir larger blacklists tree).
Proof.
  intros H1 H2. rewrite !GetCheckableFiles_emitted. apply emitted_incl.
  intros [path file] _. cbn [keeps]. intros K.
  apply andb_prop in K as [K Kp]. apply andb_prop in K as [Ks Ke].
  rewrite Ke, Kp, !andb_true_r.
  apply negb_true_iff, orb_false_iff in Ks as [Kd Ks]. rewrite Kd. cbn [orb].
  apply negb_true_iff.
  rewrite int64_small in * by lia.
  destruct (Z.gtb_spec (Size file) (maximumFileSize * 1024)); [discriminate |].
  destruct (Z.gtb_spec (Size file) (larger * 1024)); [lia | reflexivity].
Qed.

(** X24: a limit from [2 ^ 53] up to [2 ^ 54 - 1] kilobytes, or a negative one
    down to [- 2 ^ 53], is a negative number of bytes in [int64]: when no
    file has a negative size, nothing is returned. *)
Theorem GetCheckableFiles_limit_wraps (blacklists : ConfigBlacklists) :
  (2 ^ 53 <= maximumFileSize < 2 ^ 54)%Z \/ (- 2 ^ 53 <= maximumFileSize < 0)%Z ->
  (forall path file, In (path, file) (visited os dir tree) -> (0 <= Size file)%Z) ->
  GetCheckableFiles os dir maximumFileSize blacklists tree = [].
Proof.
  intros H Hs. rewrite GetCheckableFiles_emitted. apply emitted_none.
  intros [path file] Hin. cbn [keeps]. specialize (Hs path file Hin).
  assert (N : (int64 (maximumFileSize * 1024) < 0)%Z).
  { destruct H as [H | H].
    - unfold int64.
      replace ((maximumFileSize * 1024 + 2 ^ 63) mod 2 ^ 64)%Z
        with (maximumFileSize * 1024 + 2 ^ 63 - 2 ^ 64)%Z; [lia |].
      apply Z.mod_unique with 1%Z; lia.
    - rewrite int64_small by lia. lia. }
  destruct (Z.gtb_spec (Size file) (int64 (maximumFileSize * 1024))); [| lia].
  now rewrite orb_true_r.
Qed.

End Blacklists.

Lemma GetCheckableFiles_empty_indicator_witness :
  GetCheckableFiles posix "/repo" 256 (mkConfigBlacklists [".png"] [""])
    small_repo = [].
Proof.
  apply (GetCheckableFiles_empty_indicator posix "/repo" 256 small_repo
           (mkConfigBlacklists [".png"] [""])).
  left. reflexivity.
Defined.

Lemma GetCheckableFiles_blacklists_monotone_witness :
  incl (GetCheckableFiles posix "/repo" 256 small_blacklists small_repo)
       (GetCheckableFiles posix "/repo" 256 (mkConfigBlacklists [] []) small_repo).
Proof.
  apply (GetCheckableFiles_blacklists_monotone posix "/repo" 256 small_repo
           (mkConfigBlacklists [] []) small_blacklists);
    intros x Hx; contradiction Hx.
Defined.

Lemma GetCheckableFiles_extension_not_lowercase_witness :
  GetCheckableFiles posix "/repo" 256 (mkConfigBlacklists [".PNG"] ["node_modules"])
    mixed_case_repo =
  GetCheckableFiles posix "/repo" 256 (mkConfigBlacklists [] ["node_modules"])
    mixed_case_repo.
Proof.
  apply (GetCheckableFiles_extension_not_lowercase posix "/repo" 256
           mixed_case_repo ".PNG" [] ["node_modules"]).
  - apply ascii_ToLower_idempotent.
  - discriminate.
Defined.

Lemma GetCheckableFiles_limit_monotone_witness :
  incl (GetCheckableFiles posix "/repo" 1 small_blacklists small_repo)
       (GetCheckableFiles posix "/repo" 256 small_blacklists small_repo).
Proof.
  apply (GetCheckableFiles_limit_monotone posix "/repo" 1 small_repo 256
           small_blacklists); lia.
Defined.

Lemma GetCheckableFiles_limit_wraps_witness :
  GetCheckableFiles posix "/repo" (2 ^ 53) small_blacklists mixed_case_repo = [].
Proof.
  apply (GetCheckableFiles_limit_wraps posix "/repo" (2 ^ 53) mixed_case_repo
           small_blacklists).
  - left. lia.
  - intros path file H. vm_compute in H.
    repeat (destruct H as [H | H]; [injection H as _ <-; cbn; lia |]).
    contradiction.
Defined.

(** ** [GetCheckableFiles] with a negative limit *)

(** C4, as the claim has it: with [maximumFileSize = - 2 ^ 53 - 1] the
    product with 1024 wraps in [int64] to [2 ^ 63 - 1024], and the file of
    300000 bytes is returned although [maximumFileSize * 1024] is
    negative. *)
Lemma GetCheckableFiles_negative_limit :
  GetCheckableFiles posix "/repo" (- 2 ^ 53 - 1) small_blacklists small_repo =
    ["/repo/a.go"; "/repo/c.go"; "/repo/big.bin"] /\
  In ("/repo/big.bin", mkFileInfo "big.bin" 300000 false)
    (visited posix "/repo" small_repo) /\
  ~ (forall path file,
       In (path, file) (visited posix "/repo" small_repo) ->
       In (NewMatchFile posix path)
          (GetCheckableFiles posix "/repo" (- 2 ^ 53 - 1) small_blacklists
             small_repo) ->
       (Size file <= (- 2 ^ 53 - 1) * 1024)%Z).
Proof.
  split; [vm_compute; reflexivity |].
  assert (V : In ("/repo/big.bin", mkFileInfo "big.bin" 300000 false)
                (visited posix "/repo" small_repo))
    by (vm_compute; tauto).
  split; [exact V |].
  intros H. specialize (H _ _ V).
  assert (S : (300000 <= (- 2 ^ 53 - 1) * 1024)%Z).
  { apply H. vm_compute. tauto. }
  lia.
Qed.

(** ** The clone functions under their deadline *)

Section CloneDeadline.
Variable program : Cmd -> behaviour.

Lemma exec_Run_expired (cmd : Cmd) :
  (Timeout cmd <= 0)%Z -> exec_Run program cmd = ([], Some DeadlineExceeded).
Proof.
  intros H. unfold exec_Run.
  destruct (Z.leb_spec (Timeout cmd) 0); [reflexivity | lia].
Qed.

Lemma exec_Run_started (cmd : Cmd) :
  (0 < Timeout cmd)%Z ->
  (starts_of (fst (exec_Run program cmd)) <= 1)%nat /\
  (forall e, program cmd = NotStarted e ->
             exec_Run program cmd = ([], Some e)) /\
  (forall after status,
     program cmd = Exits after status -> (after < Timeout cmd)%Z ->
     exec_Run program cmd =
     ([Started cmd; Exited status],
      if (status =? 0)%Z then None else Some (ExitError status))) /\
  (forall after status,
     program cmd = Exits after status -> (Timeout cmd <= after)%Z ->
     exec_Run program cmd = ([Started cmd; Killed], Some signal_killed)) /\
  (program cmd = Hangs ->
   exec_Run program cmd = ([Started cmd; Killed], Some signal_killed)).
Proof.
  intros H. unfold exec_Run.
  destruct (Z.leb_spec (Timeout cmd) 0) as [L | _]; [lia |].
  split; [| split; [| split; [| split]]].
  - destruct (program cmd) as [after status | | e]; cbn; try lia.
    destruct (after <? Timeout cmd)%Z; cbn; lia.
  - intros e ->. reflexivity.
  - intros after status -> L.
    destruct (Z.ltb_spec after (Timeout cmd)); [reflexivity | lia].
  - intros after status -> L.
    destruct (Z.ltb_spec after (Timeout cmd)); [lia | reflexivity].
  - intros ->. reflexivity.
Qed.


End CloneDeadline.


